(** * Binary search tree visualizer: tree model, layout, centering, edges

    A shallow embedding of the helper functions of [src/App.tsx]:
    [insertIntoBST], [calculatePositions], [getHorizontalOffset] and
    [renderLines], and of the state and event handlers of the [App]
    component.

    Numbers.  Node ids are integers ([Z]).  The layout is given twice.
    In the first version levels and slot indices are integers and canvas
    coordinates exact rationals ([Q]); it is what the program computes as
    long as none of its binary64 operations rounds, which is the case for
    every slot of the levels 0 to 45.  Statements that derive a bound, an
    order or a difference from the exact values carry that limit as a
    hypothesis.  The second version, [Binary64], computes with binary64
    floats as the program does; the two are proved to agree on every tree
    of at most 12 levels, and the binary64 one gives the inputs on which
    rounding shows. *)

From Stdlib Require Import ZArith QArith Qpower Lqa Lia List Sorting.Sorted Permutation.
From Stdlib Require Import Floats Uint63.
From stdpp Require Import gmap list fin_maps.

Open Scope Z_scope.

(* ===================================================================== *)
(** ** Tree model *)
(* ===================================================================== *)

(** [TreeNode | null]: [Null] is [null], [Node id left right] is an object
    [{ id, left, right }]. *)
Inductive Tree : Type :=
| Null
| Node (id : Z) (left right : Tree).

(** [insertIntoBST(root, value)]: the spread [{ ...root, left: _ }] copies
    [id] and the other child. *)
Fixpoint insertIntoBST (root : Tree) (value : Z) : Tree :=
  match root with
  | Null => Node value Null Null
  | Node id l r =>
      if value <? id
      then Node id (insertIntoBST l value) r
      else Node id l (insertIntoBST r value)
  end.

(** The controller starts from [null] and inserts one value per click. *)
Definition insertAll (values : list Z) : Tree :=
  fold_left insertIntoBST values Null.

Fixpoint inorder (t : Tree) : list Z :=
  match t with
  | Null => []
  | Node k l r => inorder l ++ k :: inorder r
  end.

Fixpoint preorder (t : Tree) : list Z :=
  match t with
  | Null => []
  | Node k l r => k :: preorder l ++ preorder r
  end.

Fixpoint nodeCount (t : Tree) : nat :=
  match t with
  | Null => 0%nat
  | Node _ l r => S (nodeCount l + nodeCount r)
  end.

Fixpoint height (t : Tree) : nat :=
  match t with
  | Null => 0%nat
  | Node _ l r => S (Nat.max (height l) (height r))
  end.

(** Every key of [t] satisfies [P]. *)
Fixpoint AllKeys (P : Z -> Prop) (t : Tree) : Prop :=
  match t with
  | Null => True
  | Node k l r => P k /\ AllKeys P l /\ AllKeys P r
  end.

(** The search-tree invariant: left keys strictly smaller, right keys
    greater or equal. *)
Fixpoint BST (t : Tree) : Prop :=
  match t with
  | Null => True
  | Node k l r =>
      AllKeys (fun x => x < k) l /\ AllKeys (fun x => k <= x) r /\ BST l /\ BST r
  end.

(** Boolean version, for evaluation. *)
Fixpoint allKeysb (p : Z -> bool) (t : Tree) : bool :=
  match t with
  | Null => true
  | Node k l r => p k && allKeysb p l && allKeysb p r
  end.

Fixpoint isBST (t : Tree) : bool :=
  match t with
  | Null => true
  | Node k l r =>
      allKeysb (fun x => x <? k) l && allKeysb (fun x => k <=? x) r
      && isBST l && isBST r
  end.

(** The tree is a chain of right children: no node has a left child. *)
Fixpoint rightSpine (t : Tree) : bool :=
  match t with
  | Null => true
  | Node _ Null r => rightSpine r
  | Node _ (Node _ _ _) _ => false
  end.

(** The number of nodes [insertIntoBST] visits before it reaches the
    empty place for [value]. *)
Fixpoint pathLength (t : Tree) (value : Z) : nat :=
  match t with
  | Null => 0%nat
  | Node id l r => S (if value <? id then pathLength l value else pathLength r value)
  end.

(* ===================================================================== *)
(** ** Layout engine *)
(* ===================================================================== *)

Record NodePosition : Type := mkPos { x : Q; y : Q; level : Z }.

Definition containerWidth : Q := 520.
Definition verticalSpacing : Q := 80.

(** [calculatePositions(node, level, position, map)].  The [Map] object
    is shared by all recursive calls and mutated by [map.set]; here it is
    threaded through.  The trailing parameters [_depth] and [_maxLeaves]
    are never read. *)
Fixpoint calculatePositions (node : Tree) (lvl position : Z)
    (map : gmap Z NodePosition) : gmap Z NodePosition :=
  match node with
  | Null => map
  | Node id l r =>
      let slots := Qpower 2 lvl in
      let horizontalSpacing := (containerWidth / slots)%Q in
      let x := (horizontalSpacing * (inject_Z position + (1 # 2)))%Q in
      let y := (20 + inject_Z lvl * verticalSpacing)%Q in
      let map := <[id := mkPos x y lvl]> map in
      let map := match l with
                 | Null => map
                 | Node _ _ _ => calculatePositions l (lvl + 1) (position * 2) map
                 end in
      let map := match r with
                 | Null => map
                 | Node _ _ _ => calculatePositions r (lvl + 1) (position * 2 + 1) map
                 end in
      map
  end.

(** [calculatePositions(tree)] with the default arguments. *)
Definition layout (t : Tree) : gmap Z NodePosition :=
  calculatePositions t 0 0 ∅.

(** The pre-order walk of the recursion: each node with the [(level,
    position)] it is visited at. *)
Fixpoint reached (node : Tree) (lvl position : Z) : list (Z * (Z * Z)) :=
  match node with
  | Null => []
  | Node id l r =>
      (id, (lvl, position))
        :: reached l (lvl + 1) (position * 2)
        ++ reached r (lvl + 1) (position * 2 + 1)
  end.

(** The record written for a node visited at [(lvl, position)]. *)
Definition positionAt (lvl position : Z) : NodePosition :=
  mkPos (containerWidth / Qpower 2 lvl * (inject_Z position + (1 # 2)))%Q
        (20 + inject_Z lvl * verticalSpacing)%Q
        lvl.

Definition setAt (m : gmap Z NodePosition) (e : Z * (Z * Z)) : gmap Z NodePosition :=
  <[e.1 := positionAt e.2.1 e.2.2]> m.

(* ===================================================================== *)
(** ** Centering calculator *)
(* ===================================================================== *)

(** The values the local variables of [getHorizontalOffset] range over:
    finite numbers, the two infinities the accumulators start from, and
    NaN (the difference of equal infinities). *)
Inductive number : Type :=
| Fin (q : Q)
| PosInf
| NegInf
| NaN.

(** [a < b] *)
Definition num_lt (a b : number) : bool :=
  match a, b with
  | Fin p, Fin q => negb (Qle_bool q p)
  | Fin _, PosInf => true
  | NegInf, Fin _ => true
  | NegInf, PosInf => true
  | _, _ => false
  end.

(** [a + b] *)
Definition num_add (a b : number) : number :=
  match a, b with
  | Fin p, Fin q => Fin (p + q)
  | NaN, _ | _, NaN => NaN
  | PosInf, NegInf | NegInf, PosInf => NaN
  | PosInf, _ | _, PosInf => PosInf
  | NegInf, _ | _, NegInf => NegInf
  end.

(** [a - b] *)
Definition num_sub (a b : number) : number :=
  match a, b with
  | Fin p, Fin q => Fin (p - q)
  | NaN, _ | _, NaN => NaN
  | PosInf, PosInf | NegInf, NegInf => NaN
  | PosInf, _ | _, NegInf => PosInf
  | NegInf, _ | _, PosInf => NegInf
  end.

(** [a / 2] *)
Definition num_half (a : number) : number :=
  match a with
  | Fin p => Fin (p / 2)
  | _ => a
  end.

(** One iteration of the [for ... of positions.values()] loop. *)
Definition minmax_step (acc : number * number) (pos : NodePosition) : number * number :=
  let '(minX, maxX) := acc in
  let minX := if num_lt (Fin (x pos)) minX then Fin (x pos) else minX in
  let maxX := if num_lt maxX (Fin (x pos)) then Fin (x pos) else maxX in
  (minX, maxX).

(** The body of [getHorizontalOffset] for a mapping of [n] entries
    whose values are iterated in the order [vals]. *)
Definition offsetOver (n : nat) (vals : list NodePosition) (canvasWidth : Q) : number :=
  if (n =? 0)%nat then Fin 0
  else
    let '(minX, maxX) := fold_left minmax_step vals (PosInf, NegInf) in
    let treeWidth := num_sub maxX minX in
    num_sub (num_half (Fin canvasWidth)) (num_add minX (num_half treeWidth)).

(** [positions.values()].  A JavaScript [Map] iterates in insertion
    order and [gmap] in key order; what is proved about the offset is
    proved for every order of iteration. *)
Definition values (positions : gmap Z NodePosition) : list NodePosition :=
  (map_to_list positions).*2.

(** [getHorizontalOffset(positions, canvasWidth)] *)
Definition getHorizontalOffset (positions : gmap Z NodePosition) (canvasWidth : Q) : number :=
  offsetOver (size positions) (values positions) canvasWidth.

(** [lo] is the least abscissa of the mapping. *)
Definition is_minX (positions : gmap Z NodePosition) (lo : Q) : Prop :=
  (exists k pos, positions !! k = Some pos /\ x pos = lo) /\
  (forall k pos, positions !! k = Some pos -> (lo <= x pos)%Q).

(** [hi] is the greatest abscissa of the mapping. *)
Definition is_maxX (positions : gmap Z NodePosition) (hi : Q) : Prop :=
  (exists k pos, positions !! k = Some pos /\ x pos = hi) /\
  (forall k pos, positions !! k = Some pos -> (x pos <= hi)%Q).

(* ===================================================================== *)
(** ** Edge extractor *)
(* ===================================================================== *)

Inductive Side : Type := LeftSide | RightSide.

(** The geometric props of a rendered [<motion.line>]; its React [key],
    the template string [`${node.id}-left`] or [`${node.id}-right`], is
    kept as the pair of its two parts.  The styling props are constants. *)
Record Line : Type := mkLine { key : Z * Side; x1 : Q; y1 : Q; x2 : Q; y2 : Q }.

Definition nodeRadius : Q := 20.

(** The line drawn from a parent at [nodePos] to a child at [childPos]. *)
Definition lineBetween (id : Z) (side : Side) (nodePos childPos : NodePosition)
    (xOffset : Q) : Line :=
  mkLine (id, side)
         (x nodePos + xOffset) (y nodePos + nodeRadius)
         (x childPos + xOffset) (y childPos - nodeRadius).

(** [renderLines(node, positions, xOffset)] *)
Fixpoint renderLines (node : Tree) (positions : gmap Z NodePosition)
    (xOffset : Q) : list Line :=
  match node with
  | Null => []
  | Node id l r =>
      let lines := [] in
      let nodePos := positions !! id in
      let lines :=
        match l, nodePos with
        | Node lid _ _, Some nodePos =>
            match positions !! lid with
            | Some leftPos =>
                (lines ++ [lineBetween id LeftSide nodePos leftPos xOffset])
                  ++ renderLines l positions xOffset
            | None => lines
            end
        | _, _ => lines
        end in
      let lines :=
        match r, nodePos with
        | Node rid _ _, Some nodePos =>
            match positions !! rid with
            | Some rightPos =>
                (lines ++ [lineBetween id RightSide nodePos rightPos xOffset])
                  ++ renderLines r positions xOffset
            | None => lines
            end
        | _, _ => lines
        end in
      lines
  end.

(** The parent-child edges of a tree in pre-order: parent id, side and
    child id. *)
Definition childEdge (id : Z) (side : Side) (child : Tree) : list (Z * Side * Z) :=
  match child with
  | Null => []
  | Node cid _ _ => [(id, side, cid)]
  end.

Fixpoint edges (t : Tree) : list (Z * Side * Z) :=
  match t with
  | Null => []
  | Node id l r =>
      (childEdge id LeftSide l ++ edges l) ++ (childEdge id RightSide r ++ edges r)
  end.

(** [line] is the segment of the edge [e] under [positions]: both ends
    have a position and the line joins them. *)
Definition lineOfEdge (positions : gmap Z NodePosition) (xOffset : Q)
    (line : Line) (e : Z * Side * Z) : Prop :=
  exists parentPos childPos,
    positions !! e.1.1 = Some parentPos /\
    positions !! e.2 = Some childPos /\
    line = mkLine (e.1.1, e.1.2)
                  (x parentPos + xOffset) (y parentPos + 20)
                  (x childPos + xOffset) (y childPos - 20).

(** What one of the two [if (node.left && nodePos)] blocks pushes: the
    line to the child followed by the lines of its subtree, or nothing. *)
Definition childLines (id : Z) (side : Side) (child : Tree)
    (positions : gmap Z NodePosition) (xOffset : Q) : list Line :=
  match child, positions !! id with
  | Node cid _ _, Some nodePos =>
      match positions !! cid with
      | Some childPos =>
          lineBetween id side nodePos childPos xOffset
            :: renderLines child positions xOffset
      | None => []
      end
  | _, _ => []
  end.

(* ===================================================================== *)
(** ** Insertion on the object store *)
(* ===================================================================== *)

(** In the source a tree is a graph of objects and [insertIntoBST]
    returns fresh object literals.  To speak about mutation and about
    identity of references the same function is modelled once more over
    an explicit store: an object lives at a location, a [TreeNode | null]
    is a location or [None], and an object literal allocates at the next
    free location. *)
Abbreviation pureInsert := insertIntoBST (only parsing).

Module Store.

Abbreviation loc := nat (only parsing).

Abbreviation ref := (option nat) (only parsing).

Record TreeNode : Type := mkNode { id : Z; left : ref; right : ref }.

Abbreviation store := (list TreeNode) (only parsing).

(** Evaluating an object literal. *)
Definition alloc (h : store) (o : TreeNode) : loc * store :=
  (length h, h ++ [o]).

(** [insertIntoBST(root, value)].  The object spread [{ ...root, left: e }]
    copies the three fields of [root] and replaces [left].  [fuel] bounds
    the recursion depth; a dangling location yields [None] (it cannot
    occur for a reference held by a running program).  The new objects
    of one call are numbered inner before outer; a program can only test
    whether two references are the same, not how they are numbered. *)
Fixpoint insertIntoBST (fuel : nat) (h : store) (root : ref) (value : Z)
    : option (loc * store) :=
  match fuel with
  | O => None
  | S fuel =>
      match root with
      | None => Some (alloc h (mkNode value None None))
      | Some p =>
          match h !! p with
          | None => None
          | Some o =>
              if value <? id o then
                match insertIntoBST fuel h (left o) value with
                | Some (q, h1) =>
                    Some (alloc h1 (mkNode (id o) (Some q) (right o)))
                | None => None
                end
              else
                match insertIntoBST fuel h (right o) value with
                | Some (q, h1) =>
                    Some (alloc h1 (mkNode (id o) (left o) (Some q)))
                | None => None
                end
          end
      end
  end.

(** The reference [r] denotes the tree [t] in the store [h]. *)
Fixpoint repr (h : store) (r : ref) (t : Tree) : Prop :=
  match t with
  | Null => r = None
  | Node k tl tr =>
      exists p lp rp,
        r = Some p /\ h !! p = Some (mkNode k lp rp) /\
        repr h lp tl /\ repr h rp tr
  end.

(** Nothing that was in [h] has changed in [h']. *)
Definition preserved (h h' : store) : Prop :=
  forall p o, h !! p = Some o -> h' !! p = Some o.

(** The result [q] of inserting [v] at [r] copies the search path and
    shares everything off the path: at each step the new object carries
    the same id and, on the side the search does not follow, the very
    same reference as the old one; the path ends in a new leaf.  New
    objects live at locations that were free in [h]. *)
Inductive sharesOffPath (h h' : store) (v : Z) : ref -> loc -> Prop :=
| share_leaf q :
    h !! q = None ->
    h' !! q = Some (mkNode v None None) ->
    sharesOffPath h h' v None q
| share_left p o q q1 :
    h !! p = Some o -> v < id o ->
    h !! q = None ->
    h' !! q = Some (mkNode (id o) (Some q1) (right o)) ->
    sharesOffPath h h' v (left o) q1 ->
    sharesOffPath h h' v (Some p) q
| share_right p o q q1 :
    h !! p = Some o -> id o <= v ->
    h !! q = None ->
    h' !! q = Some (mkNode (id o) (left o) (Some q1)) ->
    sharesOffPath h h' v (right o) q1 ->
    sharesOffPath h h' v (Some p) q.

(** A store holding the tree built from [10; 20], for evaluation. *)
Definition example_store : store :=
  [mkNode 20 None None; mkNode 10 None (Some 0%nat)].

End Store.

(* ===================================================================== *)
(** ** Session controller *)
(* ===================================================================== *)

(** The state of the [App] component and its event handlers.  One event
    is handled per render, so the [usedValues] a handler closes over is
    the current one.  A step is the handler followed by the offset effect
    when one of its dependencies ([tree], [usedValues.length],
    [positions]) has changed. *)
Module App.

Record AppState : Type := mkState {
  tree : Tree;
  usedValues : list Z;
  isDarkMode : bool;
  treeOffset : number
}.

(** The four [useState] initial values. *)
Definition initialState : AppState := mkState Null [] false (Fin 0).

Definition predefinedValues : list Z := [10; 20; 30; 40; 50; 60; 70].

Definition canvasWidth : Q := 520.

Definition canvasHeight : Q := 480.

(** [useMemo(() => calculatePositions(tree), [tree])] *)
Definition positions (s : AppState) : gmap Z NodePosition :=
  layout (tree s).

Definition setTreeOffset (o : number) (s : AppState) : AppState :=
  mkState (tree s) (usedValues s) (isDarkMode s) o.

(** The body of the effect that maintains [treeOffset]. *)
Definition offsetEffect (s : AppState) : AppState :=
  let s :=
    match tree s with
    | Node _ _ _ =>
        if (length (usedValues s) =? 1)%nat
        then setTreeOffset (getHorizontalOffset (positions s) canvasWidth) s
        else s
    | Null => s
    end in
  match tree s with
  | Null => setTreeOffset (Fin 0) s
  | Node _ _ _ => s
  end.

(** [usedValues.includes(value)] *)
Definition includes (vs : list Z) (value : Z) : bool :=
  bool_decide (value ∈ vs).

(** [handleInsert(value)]; a successful insertion replaces [tree] by a
    new object, so the effect runs. *)
Definition handleInsert (value : Z) (s : AppState) : AppState :=
  if includes (usedValues s) value then s
  else
    offsetEffect
      (mkState (insertIntoBST (tree s) value) (usedValues s ++ [value])
               (isDarkMode s) (treeOffset s)).

(** [resetTree()]; the effect runs when the tree was not already [null]
    or the history not already empty. *)
Definition resetTree (s : AppState) : AppState :=
  let s' := mkState Null [] (isDarkMode s) (Fin 0) in
  match tree s, usedValues s with
  | Null, [] => s'
  | _, _ => offsetEffect s'
  end.

(** [toggleTheme()]; no dependency of the effect changes. *)
Definition toggleTheme (s : AppState) : AppState :=
  mkState (tree s) (usedValues s) (negb (isDarkMode s)) (treeOffset s).

Inductive Event : Type :=
| Insert (value : Z)
| Reset
| ToggleTheme.

Definition step (s : AppState) (e : Event) : AppState :=
  match e with
  | Insert value => handleInsert value s
  | Reset => resetTree s
  | ToggleTheme => toggleTheme s
  end.

(** The state after a sequence of events, from the mounted component. *)
Definition run (es : list Event) : AppState :=
  fold_left step es (offsetEffect initialState).

(** The events the palette buttons can raise. *)
Definition fromPalette (e : Event) : Prop :=
  match e with
  | Insert value => value ∈ predefinedValues
  | _ => True
  end.

(** Two states that differ at most in the theme. *)
Definition sameTree (s1 s2 : AppState) : Prop :=
  tree s1 = tree s2 /\ usedValues s1 = usedValues s2 /\ treeOffset s1 = treeOffset s2.

Definition isToggle (e : Event) : bool :=
  match e with
  | ToggleTheme => true
  | _ => false
  end.

End App.

(* ===================================================================== *)
(** ** The layout in binary64 *)
(* ===================================================================== *)

(** [calculatePositions] once more, with every JavaScript number a
    binary64 float and every operation the rounded one.  This is the
    arithmetic the program runs; the rational version above is what it
    computes as long as no operation rounds. *)
Module Binary64.

(** The number holding the integer [z], for [0 <= z < 2^63]. *)
Definition ofZ (z : Z) : float := PrimFloat.of_uint63 (Uint63.of_Z z).

(** The integer held by a number that holds a non-negative integer. *)
Definition toZ (f : float) : Z :=
  match Prim2SF f with
  | S754_finite false m e => Z.shiftl (Z.pos m) e
  | _ => 0
  end.

(** [Math.pow(2, level)] at the non-negative integers the walk passes as
    [level]: the power of two, [Infinity] from 1024 on. *)
Definition pow2 (lvl : float) : float := Z.ldexp 1 (toZ lvl).

Record NodePosition : Type := mkPos { x : float; y : float; level : float }.

Definition containerWidth : float := 520.
Definition verticalSpacing : float := 80.

(** [calculatePositions(node, level, position, map)] *)
Fixpoint calculatePositions (node : Tree) (lvl position : float)
    (map : gmap Z NodePosition) : gmap Z NodePosition :=
  match node with
  | Null => map
  | Node id l r =>
      let slots := pow2 lvl in
      let horizontalSpacing := (containerWidth / slots)%float in
      let x := (horizontalSpacing * (position + 0.5))%float in
      let y := (20 + lvl * verticalSpacing)%float in
      let map := <[id := mkPos x y lvl]> map in
      let map := match l with
                 | Null => map
                 | Node _ _ _ =>
                     calculatePositions l (lvl + 1)%float (position * 2)%float map
                 end in
      let map := match r with
                 | Null => map
                 | Node _ _ _ =>
                     calculatePositions r (lvl + 1)%float (position * 2 + 1)%float map
                 end in
      map
  end.

(** [calculatePositions(tree)] with the default arguments. *)
Definition layout (t : Tree) : gmap Z NodePosition :=
  calculatePositions t 0 0 ∅.

(** The pre-order walk with the numbers passed as [level] and
    [position]. *)
Fixpoint reached (node : Tree) (lvl position : float) : list (Z * (float * float)) :=
  match node with
  | Null => []
  | Node id l r =>
      (id, (lvl, position))
        :: reached l (lvl + 1)%float (position * 2)%float
        ++ reached r (lvl + 1)%float (position * 2 + 1)%float
  end.

(** The record written for a node visited with [lvl] and [position]. *)
Definition positionAt (lvl position : float) : NodePosition :=
  mkPos (containerWidth / pow2 lvl * (position + 0.5))%float
        (20 + lvl * verticalSpacing)%float
        lvl.

Definition setAt (m : gmap Z NodePosition) (e : Z * (float * float))
    : gmap Z NodePosition :=
  <[e.1 := positionAt e.2.1 e.2.2]> m.

(** The rational a finite number stands for; [None] for NaN and the
    infinities. *)
Definition valueOf (f : float) : option Q :=
  match Prim2SF f with
  | S754_zero _ => Some 0%Q
  | S754_finite s m e =>
      Some ((if s then -1 else 1) * inject_Z (Z.pos m) * Qpower 2 e)%Q
  | _ => None
  end.

(** The number [f] is finite and stands for exactly [q]. *)
Definition exactly (f : float) (q : Q) : Prop :=
  exists q', valueOf f = Some q' /\ (q' == q)%Q.

Definition exactlyb (f : float) (q : Q) : bool :=
  match valueOf f with
  | Some q' => Qeq_bool q' q
  | None => false
  end.

End Binary64.

(** The binary64 record [pf] holds exactly the coordinates and the level
    of the rational record [pos]. *)
Definition represents (pf : Binary64.NodePosition) (pos : NodePosition) : Prop :=
  Binary64.exactly (Binary64.x pf) (x pos) /\
  Binary64.exactly (Binary64.y pf) (y pos) /\
  Binary64.exactly (Binary64.level pf) (inject_Z (level pos)).

(** A key has an entry in both layouts or in neither, and the binary64
    entry holds exactly the rational one. *)
Definition agree (oF : option Binary64.NodePosition) (o : option NodePosition) : Prop :=
  match oF, o with
  | Some pf, Some pos => represents pf pos
  | None, None => True
  | _, _ => False
  end.

(** For the visit [(l, p)]: the numbers passed on to the children are
    the integers [2p] and [2p + 1], and the record written holds exactly
    the rational x. *)
Definition slotExact (l p : Z) : bool :=
  PrimFloat.Leibniz.eqb (Binary64.ofZ p * 2)%float (Binary64.ofZ (p * 2))
  && PrimFloat.Leibniz.eqb (Binary64.ofZ p * 2 + 1)%float (Binary64.ofZ (p * 2 + 1))
  && Binary64.exactlyb
       (Binary64.x (Binary64.positionAt (Binary64.ofZ l) (Binary64.ofZ p)))
       (x (positionAt l p)).

Fixpoint allFrom (n : nat) (f : Z -> bool) (p : Z) : bool :=
  match n with
  | O => true
  | S n => f p && allFrom n f (p + 1)
  end.

(** For level [l]: the number passed on as the next level is [l + 1], the
    record holds exactly the rational y and the level, and every slot of
    the level is exact. *)
Definition levelExact (l : Z) : bool :=
  PrimFloat.Leibniz.eqb (Binary64.ofZ l + 1)%float (Binary64.ofZ (l + 1))
  && Binary64.exactlyb
       (Binary64.y (Binary64.positionAt (Binary64.ofZ l) 0)) (y (positionAt l 0))
  && Binary64.exactlyb (Binary64.ofZ l) (inject_Z l)
  && allFrom (Z.to_nat (2 ^ l)) (slotExact l) 0.

(** The levels checked by evaluation: trees of at most [checkedHeight]
    levels. *)
Definition checkedHeight : nat := 12.

Definition tableExact : bool := allFrom checkedHeight levelExact 0.

(** The keys 10, 20, ..., 10 n; inserted in this order they form a chain
    of right children. *)
Definition chainKeys (n : nat) : list Z :=
  List.map (fun i => 10 * Z.of_nat i) (seq 1 n).

(* ===================================================================== *)
(** ** Lemmas *)
(* ===================================================================== *)

(* --------------------------------------------------------------------- *)
(** *** Lemmas on insertion *)

Lemma AllKeys_insert (P : Z -> Prop) t v :
  AllKeys P t -> P v -> AllKeys P (insertIntoBST t v).
Proof.
  induction t as [|k l IHl r IHr]; simpl; [tauto|].
  intros (Hk & Hl & Hr) Hv.
  destruct (v <? k); simpl; auto.
Qed.

Lemma AllKeys_Forall P t : AllKeys P t <-> Forall P (inorder t).
Proof.
  induction t as [|k l IHl r IHr]; simpl.
  - split; auto.
  - rewrite Forall_app, Forall_cons_iff, IHl, IHr. tauto.
Qed.

Lemma BST_insert t v : BST t -> BST (insertIntoBST t v).
Proof.
  induction t as [|k l IHl r IHr]; simpl; [tauto|].
  intros (Hl & Hr & Bl & Br).
  destruct (Z.ltb_spec v k); simpl; repeat split; auto using AllKeys_insert.
Qed.

Lemma isBST_spec t : isBST t = true <-> BST t.
Proof.
  assert (Hall : forall (p : Z -> bool) (P : Z -> Prop),
             (forall x, p x = true <-> P x) ->
             forall u, allKeysb p u = true <-> AllKeys P u).
  { intros p P Hp u. induction u as [|k l IHl r IHr]; simpl; [tauto|].
    rewrite !andb_true_iff, Hp, IHl, IHr. tauto. }
  induction t as [|k l IHl r IHr]; simpl; [tauto|].
  rewrite !andb_true_iff, IHl, IHr.
  rewrite (Hall _ (fun x => x < k)) by (intros; apply Z.ltb_lt).
  rewrite (Hall _ (fun x => k <= x)) by (intros; apply Z.leb_le).
  tauto.
Qed.

Lemma inorder_insert_perm t v :
  Permutation (inorder (insertIntoBST t v)) (v :: inorder t).
Proof.
  induction t as [|k l IHl r IHr]; simpl; [reflexivity|].
  destruct (v <? k); simpl.
  - rewrite IHl. reflexivity.
  - rewrite IHr.
    change (Permutation (inorder l ++ [k] ++ v :: inorder r)
                        (v :: inorder l ++ [k] ++ inorder r)).
    rewrite !app_assoc. symmetry. apply Permutation_middle.
Qed.

Lemma nodeCount_insert t v : nodeCount (insertIntoBST t v) = S (nodeCount t).
Proof.
  induction t as [|k l IHl r IHr]; simpl; [reflexivity|].
  destruct (v <? k); simpl; rewrite ?IHl, ?IHr; lia.
Qed.

Lemma fold_insert_BST vs t : BST t -> BST (fold_left insertIntoBST vs t).
Proof.
  revert t. induction vs as [|v vs IH]; simpl; auto using BST_insert.
Qed.

Lemma fold_insert_perm vs t :
  Permutation (inorder (fold_left insertIntoBST vs t)) (vs ++ inorder t).
Proof.
  revert t. induction vs as [|v vs IH]; intros t; simpl; [reflexivity|].
  rewrite IH, inorder_insert_perm. symmetry. apply Permutation_middle.
Qed.

(** In a search tree the in-order listing is non-decreasing. *)
Lemma BST_inorder_le t : BST t -> StronglySorted Z.le (inorder t).
Proof.
  induction t as [|k l IHl r IHr]; simpl; [constructor|].
  intros (Hl & Hr & Bl & Br).
  apply AllKeys_Forall in Hl, Hr.
  induction (inorder l) as [|a xs IHxs]; simpl.
  - constructor; auto.
  - specialize (IHl Bl). inversion IHl; subst. inversion Hl; subst.
    constructor.
    + apply IHxs; auto.
    + rewrite Forall_app. split; [assumption|].
      constructor; [lia|]. eapply Forall_impl; [exact Hr|]. simpl. lia.
Qed.

Lemma sorted_le_NoDup_lt (xs : list Z) :
  StronglySorted Z.le xs -> NoDup xs -> StronglySorted Z.lt xs.
Proof.
  induction 1 as [|a xs Hs IH Ha]; intros Hnd; constructor.
  - apply IH. now apply NoDup_cons in Hnd.
  - apply NoDup_cons in Hnd as [Hnotin _].
    rewrite Forall_forall in *. intros x Hx.
    specialize (Ha x Hx). assert (a <> x) by (intros ->; auto). lia.
Qed.

(** Conversely a strictly increasing in-order listing forces the invariant. *)
Lemma inorder_lt_BST t : StronglySorted Z.lt (inorder t) -> BST t.
Proof.
  induction t as [|k l IHl r IHr]; simpl; [tauto|].
  intros Hs.
  assert (Hl : StronglySorted Z.lt (inorder l) /\
               StronglySorted Z.lt (k :: inorder r) /\
               Forall (fun x => x < k) (inorder l)).
  { clear IHl IHr. induction (inorder l) as [|a xs IHxs]; simpl in *.
    - repeat split; auto. constructor.
    - inversion Hs as [|? ? Hs' Ha]; subst.
      destruct (IHxs Hs') as (H1 & H2 & H3).
      rewrite Forall_app, Forall_cons_iff in Ha.
      repeat split; auto.
      + constructor; auto. tauto.
      + constructor; [tauto|assumption]. }
  destruct Hl as (Hl & Hr & Hlk).
  inversion Hr as [|? ? Hr' Hkr]; subst.
  repeat split; auto.
  - now apply AllKeys_Forall.
  - apply AllKeys_Forall. eapply Forall_impl; [exact Hkr|]. simpl. lia.
Qed.

(* --------------------------------------------------------------------- *)
(** *** Lemmas on the layout *)

Lemma calculatePositions_fold t lvl p m :
  calculatePositions t lvl p m = fold_left setAt (reached t lvl p) m.
Proof.
  revert lvl p m. induction t as [|k l IHl r IHr]; intros lvl p m; [reflexivity|].
  cbn [calculatePositions reached fold_left].
  rewrite fold_left_app. unfold setAt at 3. cbn [fst snd].
  rewrite <- IHl, <- IHr. unfold positionAt.
  destruct l, r; reflexivity.
Qed.

Lemma reached_keys t lvl p : (reached t lvl p).*1 = preorder t.
Proof.
  revert lvl p. induction t as [|k l IHl r IHr]; intros; simpl; [reflexivity|].
  rewrite fmap_app, IHl, IHr. reflexivity.
Qed.

Lemma fold_setAt_dom es (m : gmap Z NodePosition) :
  dom (fold_left setAt es m) = dom m ∪ list_to_set es.*1.
Proof.
  revert m. induction es as [|e es IH]; intros m; simpl.
  - symmetry. apply leibniz_equiv. apply (right_id ∅ (∪)).
  - rewrite IH. unfold setAt. rewrite dom_insert_L.
    apply leibniz_equiv.
    rewrite (comm (∪) {[e.1]} (dom m)), <- (assoc (∪)). reflexivity.
Qed.

(** Every entry of the result is either an initial entry or the record of
    some visit. *)
Lemma fold_setAt_lookup_inv es (m : gmap Z NodePosition) k pos :
  fold_left setAt es m !! k = Some pos ->
  m !! k = Some pos \/
  exists lvl p, (k, (lvl, p)) ∈ es /\ pos = positionAt lvl p.
Proof.
  revert m. induction es as [|[k' [lvl' p']] es IH]; intros m; simpl; [auto|].
  intros H. apply IH in H as [H | (lvl & p & Hin & ->)].
  - unfold setAt in H. cbn [fst snd] in H.
    destruct (decide (k' = k)) as [->|Hne].
    + rewrite lookup_insert_eq in H. injection H as <-.
      right. exists lvl', p'. split; [left|reflexivity].
    + rewrite lookup_insert_ne in H by assumption. auto.
  - right. exists lvl, p. split; [now right|reflexivity].
Qed.

Lemma fold_setAt_lookup_fresh es (m : gmap Z NodePosition) k :
  k ∉ es.*1 -> fold_left setAt es m !! k = m !! k.
Proof.
  revert m. induction es as [|[k' ls] es IH]; intros m Hk; simpl; [reflexivity|].
  simpl in Hk. apply not_elem_of_cons in Hk as [Hne Hk].
  rewrite IH by assumption. unfold setAt. cbn [fst].
  apply lookup_insert_ne. congruence.
Qed.

(** With pairwise distinct keys every visit survives in the result. *)
Lemma fold_setAt_lookup es (m : gmap Z NodePosition) k lvl p :
  NoDup es.*1 -> (k, (lvl, p)) ∈ es ->
  fold_left setAt es m !! k = Some (positionAt lvl p).
Proof.
  revert m. induction es as [|[k' [lvl' p']] es IH]; intros m Hnd Hin.
  - now apply elem_of_nil in Hin.
  - simpl in Hnd. apply NoDup_cons in Hnd as [Hnotin Hnd].
    apply elem_of_cons in Hin as [Heq | Hin]; simpl.
    + injection Heq as -> -> ->.
      rewrite fold_setAt_lookup_fresh by assumption.
      unfold setAt. cbn [fst snd]. apply lookup_insert_eq.
    + apply IH; assumption.
Qed.

(** Slot addressing: a node visited below [(lvl, p)] at level [l'] has its
    slot in the block of [2 ^ (l' - lvl)] slots owned by [(lvl, p)]. *)
Lemma reached_range t lvl p k l' s :
  (k, (l', s)) ∈ reached t lvl p ->
  lvl <= l' /\ p * 2 ^ (l' - lvl) <= s < (p + 1) * 2 ^ (l' - lvl).
Proof.
  revert lvl p. induction t as [|k0 l IHl r IHr]; intros lvl p; simpl.
  - intros H. now apply elem_of_nil in H.
  - rewrite elem_of_cons, elem_of_app. intros [Heq | [Hin | Hin]].
    + injection Heq as -> -> ->. rewrite Z.sub_diag. simpl. lia.
    + apply IHl in Hin as (Hle & Hs).
      replace (l' - lvl) with (Z.succ (l' - (lvl + 1))) by lia.
      rewrite Z.pow_succ_r by lia.
      assert (0 < 2 ^ (l' - (lvl + 1))) by (apply Z.pow_pos_nonneg; lia).
      split; [lia|nia].
    + apply IHr in Hin as (Hle & Hs).
      replace (l' - lvl) with (Z.succ (l' - (lvl + 1))) by lia.
      rewrite Z.pow_succ_r by lia.
      assert (0 < 2 ^ (l' - (lvl + 1))) by (apply Z.pow_pos_nonneg; lia).
      split; [lia|nia].
Qed.

(** No two visits share a [(level, position)] pair. *)
Lemma reached_slots_NoDup t lvl p : NoDup (reached t lvl p).*2.
Proof.
  revert lvl p. induction t as [|k l IHl r IHr]; intros lvl p; simpl; [constructor|].
  rewrite fmap_app. apply NoDup_cons. split.
  - rewrite elem_of_app, !list_elem_of_fmap.
    intros [([k' [l' s]] & Heq & Hin) | ([k' [l' s]] & Heq & Hin)];
      simpl in Heq; injection Heq as <- <-;
      apply reached_range in Hin; lia.
  - apply NoDup_app. repeat split; auto.
    intros [l' s]. rewrite !list_elem_of_fmap.
    intros ([k1 [l1 s1]] & Heq1 & Hin1) ([k2 [l2 s2]] & Heq2 & Hin2).
    simpl in Heq1, Heq2. injection Heq1 as -> ->. injection Heq2 as -> ->.
    apply reached_range in Hin1, Hin2.
    assert (0 < 2 ^ (l2 - (lvl + 1))) by (apply Z.pow_pos_nonneg; lia).
    nia.
Qed.

Lemma reached_slot_key t lvl p k1 k2 ls :
  (k1, ls) ∈ reached t lvl p -> (k2, ls) ∈ reached t lvl p -> k1 = k2.
Proof.
  pose proof (reached_slots_NoDup t lvl p) as Hnd.
  induction (reached t lvl p) as [|[k' ls'] es IH]; simpl.
  - intros H. now apply elem_of_nil in H.
  - simpl in Hnd. apply NoDup_cons in Hnd as [Hnotin Hnd].
    assert (Hout : forall k, (k, ls') ∈ es -> False).
    { intros k Hin. apply Hnotin, list_elem_of_fmap.
      exists (k, ls'). split; [reflexivity|assumption]. }
    rewrite !elem_of_cons.
    intros [H1 | H1] [H2 | H2].
    + congruence.
    + exfalso. apply (Hout k2). congruence.
    + exfalso. apply (Hout k1). congruence.
    + now apply IH.
Qed.

(** On one level the abscissa determines the slot. *)
Lemma positionAt_x_inj lvl s1 s2 :
  (x (positionAt lvl s1) == x (positionAt lvl s2))%Q -> s1 = s2.
Proof.
  unfold positionAt. cbn [x]. intros H.
  assert (Hpow : (0 < Qpower 2 lvl)%Q) by (apply Qpower_0_lt; reflexivity).
  assert (Hw : ~ (containerWidth / Qpower 2 lvl == 0)%Q).
  { intros Hz. unfold containerWidth in Hz.
    assert (Hq : (520 == 0 * Qpower 2 lvl)%Q).
    { rewrite <- Hz. field. lra. }
    lra. }
  apply Qmult_inj_l in H; [|exact Hw].
  apply inject_Z_injective. lra.
Qed.

(* --------------------------------------------------------------------- *)
(** *** Lemmas on the loop *)

Lemma num_lt_Fin p q : num_lt (Fin p) (Fin q) = true <-> (p < q)%Q.
Proof.
  simpl. rewrite negb_true_iff. split.
  - intros H. apply Qnot_le_lt. intros Hle. apply Qle_bool_iff in Hle. congruence.
  - intros H. destruct (Qle_bool q p) eqn:E; [|reflexivity].
    apply Qle_bool_iff in E. lra.
Qed.

Lemma minmax_step_Fin lo hi pos :
  minmax_step (Fin lo, Fin hi) pos =
  (Fin (if num_lt (Fin (x pos)) (Fin lo) then x pos else lo),
   Fin (if num_lt (Fin hi) (Fin (x pos)) then x pos else hi)).
Proof.
  unfold minmax_step. destruct (num_lt _ _), (num_lt _ _); reflexivity.
Qed.

(** Once both accumulators are finite the loop keeps them finite, only
    ever moves them to an abscissa it has seen, and bounds everything
    seen. *)
Lemma minmax_fold_Fin ps lo hi :
  exists lo' hi',
    fold_left minmax_step ps (Fin lo, Fin hi) = (Fin lo', Fin hi') /\
    (lo' = lo \/ exists pos, pos ∈ ps /\ x pos = lo') /\
    (hi' = hi \/ exists pos, pos ∈ ps /\ x pos = hi') /\
    (lo' <= lo)%Q /\ (hi <= hi')%Q /\
    (forall pos, pos ∈ ps -> (lo' <= x pos <= hi')%Q).
Proof.
  revert lo hi. induction ps as [|pos ps IH]; intros lo hi; cbn [fold_left].
  - exists lo, hi. split_and!; auto; try lra.
    intros pos H. now apply elem_of_nil in H.
  - rewrite minmax_step_Fin.
    set (lo1 := if num_lt (Fin (x pos)) (Fin lo) then x pos else lo).
    set (hi1 := if num_lt (Fin hi) (Fin (x pos)) then x pos else hi).
    assert (Hlo1 : (lo1 <= lo)%Q /\ (lo1 <= x pos)%Q /\ (lo1 = lo \/ lo1 = x pos)).
    { unfold lo1. destruct (num_lt (Fin (x pos)) (Fin lo)) eqn:E.
      - apply num_lt_Fin in E. split_and!; auto; lra.
      - assert (~ (x pos < lo)%Q) by (intros H; apply num_lt_Fin in H; congruence).
        split_and!; auto; lra. }
    assert (Hhi1 : (hi <= hi1)%Q /\ (x pos <= hi1)%Q /\ (hi1 = hi \/ hi1 = x pos)).
    { unfold hi1. destruct (num_lt (Fin hi) (Fin (x pos))) eqn:E.
      - apply num_lt_Fin in E. split_and!; auto; lra.
      - assert (~ (hi < x pos)%Q) by (intros H; apply num_lt_Fin in H; congruence).
        split_and!; auto; lra. }
    clearbody lo1 hi1.
    destruct (IH lo1 hi1) as (lo' & hi' & Hf & Hl & Hh & Hle & Hge & Hall).
    exists lo', hi'. split; [exact Hf|].
    destruct Hlo1 as (? & ? & Hlo1), Hhi1 as (? & ? & Hhi1).
    split_and!.
    + destruct Hl as [-> | (p' & Hin & Hx)].
      * destruct Hlo1 as [-> | ->]; [now left|].
        right. exists pos. split; [left|reflexivity].
      * right. exists p'. split; [now right|assumption].
    + destruct Hh as [-> | (p' & Hin & Hx)].
      * destruct Hhi1 as [-> | ->]; [now left|].
        right. exists pos. split; [left|reflexivity].
      * right. exists p'. split; [now right|assumption].
    + lra.
    + lra.
    + intros p' Hin. apply elem_of_cons in Hin as [-> | Hin]; [lra|].
      now apply Hall.
Qed.

(** Starting from [(Infinity, -Infinity)] over a non-empty sequence. *)
Lemma minmax_fold_start pos ps :
  exists lo hi,
    fold_left minmax_step (pos :: ps) (PosInf, NegInf) = (Fin lo, Fin hi) /\
    (exists p, p ∈ pos :: ps /\ x p = lo) /\
    (exists p, p ∈ pos :: ps /\ x p = hi) /\
    (forall p, p ∈ pos :: ps -> (lo <= x p <= hi)%Q).
Proof.
  cbn [fold_left]. change (minmax_step (PosInf, NegInf) pos) with (Fin (x pos), Fin (x pos)).
  destruct (minmax_fold_Fin ps (x pos) (x pos))
    as (lo & hi & Hf & Hl & Hh & Hle & Hge & Hall).
  exists lo, hi. split; [exact Hf|]. split_and!.
  - destruct Hl as [-> | (p & Hin & Hx)].
    + exists pos. split; [left|reflexivity].
    + exists p. split; [now right|assumption].
  - destruct Hh as [-> | (p & Hin & Hx)].
    + exists pos. split; [left|reflexivity].
    + exists p. split; [now right|assumption].
  - intros p Hin. apply elem_of_cons in Hin as [-> | Hin]; [lra|].
    now apply Hall.
Qed.

Lemma elem_of_values (m : gmap Z NodePosition) pos :
  pos ∈ values m <-> exists k, m !! k = Some pos.
Proof.
  unfold values. rewrite list_elem_of_fmap. split.
  - intros ([k p] & -> & Hin). exists k. now apply elem_of_map_to_list in Hin.
  - intros (k & Hk). exists (k, pos). split; [reflexivity|].
    now apply elem_of_map_to_list.
Qed.

(* --------------------------------------------------------------------- *)
(** *** Lemmas on edge extraction *)

Lemma renderLines_Node id l r (m : gmap Z NodePosition) off :
  renderLines (Node id l r) m off =
  childLines id LeftSide l m off ++ childLines id RightSide r m off.
Proof.
  cbn [renderLines]. unfold childLines.
  destruct (m !! id) as [np|].
  - destruct l as [|lid ll lr], r as [|rid rl rr]; cbn [app];
      repeat match goal with |- context [m !! ?k] => destruct (m !! k) end;
      cbn [app]; rewrite ?app_nil_r, <- ?app_assoc; reflexivity.
  - destruct l, r; reflexivity.
Qed.

Lemma renderLines_covered t (m : gmap Z NodePosition) off :
  (forall k, k ∈ preorder t -> is_Some (m !! k)) ->
  Forall2 (lineOfEdge m off) (renderLines t m off) (edges t).
Proof.
  induction t as [|k l IHl r IHr]; intros Hcov; [constructor|].
  assert (Hl : forall k', k' ∈ preorder l -> is_Some (m !! k')).
  { intros k' H. apply Hcov. simpl. rewrite elem_of_cons, elem_of_app. auto. }
  assert (Hr : forall k', k' ∈ preorder r -> is_Some (m !! k')).
  { intros k' H. apply Hcov. simpl. rewrite elem_of_cons, elem_of_app. auto. }
  destruct (Hcov k) as [np Hnp]; [left|].
  specialize (IHl Hl). specialize (IHr Hr).
  rewrite renderLines_Node. cbn [edges]. unfold childLines. rewrite Hnp.
  apply Forall2_app.
  - destruct l as [|lid ll lr]; [constructor|].
    destruct (Hl lid) as [lp Hlp]; [left|]. rewrite Hlp.
    cbn [childEdge app]. constructor; [|exact IHl].
    exists np, lp. auto.
  - destruct r as [|rid rl rr]; [constructor|].
    destruct (Hr rid) as [rp Hrp]; [left|]. rewrite Hrp.
    cbn [childEdge app]. constructor; [|exact IHr].
    exists np, rp. auto.
Qed.

(** Whatever the mapping, each line drawn is the segment of an edge of
    the tree both of whose ends have a position. *)
Lemma renderLines_sound t (m : gmap Z NodePosition) off line :
  line ∈ renderLines t m off -> exists e, e ∈ edges t /\ lineOfEdge m off line e.
Proof.
  induction t as [|k l IHl r IHr]; [intros H; now apply elem_of_nil in H|].
  rewrite renderLines_Node, elem_of_app. cbn [edges]. unfold childLines.
  intros [H | H].
  - destruct l as [|lid ll lr]; [now apply elem_of_nil in H|].
    destruct (m !! k) as [np|] eqn:Hnp; [|now apply elem_of_nil in H].
    destruct (m !! lid) as [lp|] eqn:Hlp; [|now apply elem_of_nil in H].
    apply elem_of_cons in H as [-> | H].
    + exists (k, LeftSide, lid). split.
      * cbn [childEdge app]. left.
      * exists np, lp. auto.
    + destruct (IHl H) as (e & He & Hline). exists e. split; [|exact Hline].
      rewrite !elem_of_app. auto.
  - destruct r as [|rid rl rr]; [now apply elem_of_nil in H|].
    destruct (m !! k) as [np|] eqn:Hnp; [|now apply elem_of_nil in H].
    destruct (m !! rid) as [rp|] eqn:Hrp; [|now apply elem_of_nil in H].
    apply elem_of_cons in H as [-> | H].
    + exists (k, RightSide, rid). split.
      * rewrite !elem_of_app. right. left. left.
      * exists np, rp. auto.
    + destruct (IHr H) as (e & He & Hline). exists e. split; [|exact Hline].
      rewrite !elem_of_app. auto.
Qed.

(* --------------------------------------------------------------------- *)
(** *** Lemmas on the object store *)

Module StoreFacts.
Import Store.


Lemma preserved_trans h1 h2 h3 :
  preserved h1 h2 -> preserved h2 h3 -> preserved h1 h3.
Proof. intros H12 H23 p o H. auto. Qed.

Lemma preserved_alloc h o : preserved h (alloc h o).2.
Proof. intros p o' H. simpl. now apply lookup_app_l_Some. Qed.

Lemma lookup_alloc h o : (alloc h o).2 !! (alloc h o).1 = Some o.
Proof. simpl. rewrite lookup_app_r by lia. now rewrite Nat.sub_diag. Qed.

Lemma alloc_fresh h o : h !! (alloc h o).1 = None.
Proof. simpl. apply lookup_ge_None. lia. Qed.

Lemma preserved_None h h' p :
  preserved h h' -> h' !! p = None -> h !! p = None.
Proof.
  intros Hp Hn. destruct (h !! p) as [o|] eqn:E; [|reflexivity].
  apply Hp in E. congruence.
Qed.

Lemma repr_preserved h h' r t : preserved h h' -> repr h r t -> repr h' r t.
Proof.
  intros Hp. revert r. induction t as [|k tl IHl tr IHr]; intros r; simpl; [auto|].
  intros (p & lp & rp & -> & Hlook & Hl & Hr).
  exists p, lp, rp. auto.
Qed.

Lemma sharesOffPath_preserved h h1 h2 v r q :
  preserved h1 h2 -> sharesOffPath h h1 v r q -> sharesOffPath h h2 v r q.
Proof.
  intros Hp. induction 1.
  - apply share_leaf; auto.
  - eapply share_left; eauto.
  - eapply share_right; eauto.
Qed.

(** The store version computes the pure function, changes nothing and
    shares off the path. *)
Lemma insertIntoBST_spec t : forall fuel h root v,
  (height t < fuel)%nat -> repr h root t ->
  exists q h',
    insertIntoBST fuel h root v = Some (q, h') /\
    preserved h h' /\
    repr h' (Some q) (pureInsert t v) /\
    sharesOffPath h h' v root q.
Proof.
  induction t as [|k tl IHl tr IHr]; intros fuel h root v Hfuel Hrepr;
    (destruct fuel as [|fuel]; [simpl in Hfuel; lia|]).
  - simpl in Hrepr. subst root. cbn [insertIntoBST pureInsert].
    eexists _, _. split; [reflexivity|]. split_and!.
    + apply preserved_alloc.
    + exists (length h), None, None.
      split_and!; [reflexivity|apply (lookup_alloc h)|reflexivity|reflexivity].
    + apply share_leaf; [apply (alloc_fresh h (mkNode v None None))|].
      apply (lookup_alloc h).
  - destruct Hrepr as (p & lp & rp & -> & Hlook & Hl & Hr).
    cbn [insertIntoBST pureInsert]. rewrite Hlook. cbn [id left right].
    simpl in Hfuel.
    destruct (Z.ltb_spec v k) as [Hlt | Hge].
    + destruct (IHl fuel h lp v) as (q1 & h1 & -> & Hp1 & Hr1 & Hs1); [lia|exact Hl|].
      eexists _, _. split; [reflexivity|].
      pose proof (preserved_alloc h1 (mkNode k (Some q1) rp)) as Hp2.
      pose proof (lookup_alloc h1 (mkNode k (Some q1) rp)) as Hnew.
      pose proof (alloc_fresh h1 (mkNode k (Some q1) rp)) as Hfresh.
      split_and!.
      * eapply preserved_trans; eassumption.
      * eexists _, (Some q1), rp. split_and!; [reflexivity|exact Hnew| |].
        -- eapply repr_preserved; eassumption.
        -- eapply repr_preserved; [|exact Hr].
           eapply preserved_trans; eassumption.
      * eapply (share_left _ _ _ p (mkNode k lp rp) _ q1); auto.
        -- eapply preserved_None; eassumption.
        -- eapply sharesOffPath_preserved; eassumption.
    + destruct (IHr fuel h rp v) as (q1 & h1 & -> & Hp1 & Hr1 & Hs1); [lia|exact Hr|].
      eexists _, _. split; [reflexivity|].
      pose proof (preserved_alloc h1 (mkNode k lp (Some q1))) as Hp2.
      pose proof (lookup_alloc h1 (mkNode k lp (Some q1))) as Hnew.
      pose proof (alloc_fresh h1 (mkNode k lp (Some q1))) as Hfresh.
      split_and!.
      * eapply preserved_trans; eassumption.
      * eexists _, lp, (Some q1). split_and!; [reflexivity|exact Hnew| |].
        -- eapply repr_preserved; [|exact Hl].
           eapply preserved_trans; eassumption.
        -- eapply repr_preserved; eassumption.
      * eapply (share_right _ _ _ p (mkNode k lp rp) _ q1); auto.
        -- eapply preserved_None; eassumption.
        -- eapply sharesOffPath_preserved; eassumption.
Qed.

End StoreFacts.

Lemma reached_level_bound t : forall lvl p k l' s,
  (k, (l', s)) ∈ reached t lvl p -> lvl <= l' < lvl + Z.of_nat (height t).
Proof.
  induction t as [|k0 l IHl r IHr]; intros lvl p k l' s; cbn [reached height].
  - intros H. now apply elem_of_nil in H.
  - rewrite elem_of_cons, elem_of_app. intros [Heq | [Hin | Hin]].
    + injection Heq as -> -> ->. lia.
    + apply IHl in Hin. lia.
    + apply IHr in Hin. lia.
Qed.

(* --------------------------------------------------------------------- *)
(** *** Lemmas on the binary64 layout *)

Lemma allFrom_spec n f : forall p0 p,
  allFrom n f p0 = true -> p0 <= p < p0 + Z.of_nat n -> f p = true.
Proof.
  induction n as [|n IH]; intros p0 p Hall Hp; [lia|].
  cbn [allFrom] in Hall. apply andb_true_iff in Hall as [Hhere Hrest].
  destruct (decide (p = p0)) as [->|Hne]; [exact Hhere|].
  apply (IH (p0 + 1)); [exact Hrest|lia].
Qed.

(** Evaluated: on the first [checkedHeight] levels no operation of the
    walk rounds. *)
Lemma tableExact_true : allFrom checkedHeight levelExact 0 = true.
Proof. vm_compute. reflexivity. Qed.

Lemma levelExact_ok l :
  0 <= l < Z.of_nat checkedHeight -> levelExact l = true.
Proof.
  intros Hl.
  pose proof (allFrom_spec checkedHeight levelExact 0 l tableExact_true) as H.
  apply H. clear H. lia.
Qed.

Lemma slotExact_ok l p :
  0 <= l < Z.of_nat checkedHeight -> 0 <= p < 2 ^ l -> slotExact l p = true.
Proof.
  intros Hl Hp. pose proof (levelExact_ok l Hl) as H.
  unfold levelExact in H. apply andb_true_iff in H as [_ H].
  apply (allFrom_spec _ _ 0 p H).
  rewrite Z2Nat.id by (apply Z.pow_nonneg; lia). lia.
Qed.

Lemma exactlyb_spec f q : Binary64.exactlyb f q = true -> Binary64.exactly f q.
Proof.
  unfold Binary64.exactlyb, Binary64.exactly.
  destruct (Binary64.valueOf f) as [q'|]; [|discriminate].
  intros H. exists q'. split; [reflexivity|]. now apply Qeq_bool_iff.
Qed.

Lemma level_step l :
  0 <= l < Z.of_nat checkedHeight ->
  (Binary64.ofZ l + 1)%float = Binary64.ofZ (l + 1).
Proof.
  intros Hl. pose proof (levelExact_ok l Hl) as H. unfold levelExact in H.
  rewrite !andb_true_iff in H. destruct H as [[[H _] _] _].
  now apply FloatAxioms.Leibniz.eqb_spec.
Qed.

Lemma slot_steps l p :
  0 <= l < Z.of_nat checkedHeight -> 0 <= p < 2 ^ l ->
  (Binary64.ofZ p * 2)%float = Binary64.ofZ (p * 2) /\
  (Binary64.ofZ p * 2 + 1)%float = Binary64.ofZ (p * 2 + 1).
Proof.
  intros Hl Hp. pose proof (slotExact_ok l p Hl Hp) as H. unfold slotExact in H.
  rewrite !andb_true_iff in H. destruct H as [[H1 H2] _].
  split; now apply FloatAxioms.Leibniz.eqb_spec.
Qed.

(** On the checked levels the record written in binary64 holds exactly
    the rational record. *)
Lemma represents_positionAt l p :
  0 <= l < Z.of_nat checkedHeight -> 0 <= p < 2 ^ l ->
  represents (Binary64.positionAt (Binary64.ofZ l) (Binary64.ofZ p)) (positionAt l p).
Proof.
  intros Hl Hp.
  pose proof (slotExact_ok l p Hl Hp) as Hs. unfold slotExact in Hs.
  pose proof (levelExact_ok l Hl) as Hv. unfold levelExact in Hv.
  rewrite !andb_true_iff in Hs. rewrite !andb_true_iff in Hv.
  destruct Hs as [_ Hx]. destruct Hv as [[[_ Hy] Hlev] _].
  split_and!.
  - now apply exactlyb_spec.
  - now apply exactlyb_spec.
  - now apply exactlyb_spec.
Qed.

Definition toBinary64 (e : Z * (Z * Z)) : Z * (float * float) :=
  (e.1, (Binary64.ofZ e.2.1, Binary64.ofZ e.2.2)).

(** On the checked levels the binary64 walk passes the same levels and
    slots as the exact walk. *)
Lemma reached_binary64 t : forall l p,
  0 <= l -> 0 <= p < 2 ^ l ->
  l + Z.of_nat (height t) <= Z.of_nat checkedHeight ->
  Binary64.reached t (Binary64.ofZ l) (Binary64.ofZ p) = toBinary64 <$> reached t l p.
Proof.
  induction t as [|k tl IHl tr IHr]; intros l p Hl Hp Hh; [reflexivity|].
  cbn [height] in Hh. cbn [Binary64.reached reached].
  rewrite fmap_cons, fmap_app.
  assert (Hin : 0 <= l < Z.of_nat checkedHeight) by lia.
  rewrite (level_step l Hin).
  destruct (slot_steps l p Hin Hp) as [-> ->].
  assert (Hpow : 2 ^ (l + 1) = 2 * 2 ^ l).
  { rewrite Z.pow_add_r by lia. change (2 ^ 1) with 2. lia. }
  rewrite IHl by lia. rewrite IHr by lia. reflexivity.
Qed.

Lemma binary64_calculatePositions_fold t lvl pos m :
  Binary64.calculatePositions t lvl pos m
  = fold_left Binary64.setAt (Binary64.reached t lvl pos) m.
Proof.
  revert lvl pos m. induction t as [|k l IHl r IHr]; intros lvl pos m; [reflexivity|].
  cbn [Binary64.calculatePositions Binary64.reached fold_left].
  rewrite fold_left_app. unfold Binary64.setAt at 3. cbn [fst snd].
  rewrite <- IHl, <- IHr. unfold Binary64.positionAt.
  destruct l, r; reflexivity.
Qed.

Lemma fold_agree es : forall (mF : gmap Z Binary64.NodePosition) (m : gmap Z NodePosition),
  (forall k l p, (k, (l, p)) ∈ es -> 0 <= l < Z.of_nat checkedHeight /\ 0 <= p < 2 ^ l) ->
  (forall k, agree (mF !! k) (m !! k)) ->
  forall k, agree (fold_left Binary64.setAt (toBinary64 <$> es) mF !! k)
                  (fold_left setAt es m !! k).
Proof.
  induction es as [|[k0 [l0 p0]] es IH]; intros mF m Hrange Hag; [exact Hag|].
  cbn [fmap list_fmap fold_left]. apply IH.
  - intros k l p Hin. apply (Hrange k). now right.
  - intros k. unfold Binary64.setAt, setAt, toBinary64. cbn [fst snd].
    destruct (decide (k0 = k)) as [->|Hne].
    + rewrite !lookup_insert_eq. cbn [agree].
      destruct (Hrange k l0 p0) as [Hl Hp]; [left|].
      now apply represents_positionAt.
    + rewrite !lookup_insert_ne by assumption. apply Hag.
Qed.

(** For a tree of at most [checkedHeight] levels the binary64 layout has
    the same keys as the rational one and holds exactly its records. *)
Lemma layout_agree t k :
  (height t <= checkedHeight)%nat ->
  agree (Binary64.layout t !! k) (layout t !! k).
Proof.
  intros Hh. unfold Binary64.layout, layout.
  rewrite binary64_calculatePositions_fold, calculatePositions_fold.
  change 0%float with (Binary64.ofZ 0).
  rewrite (reached_binary64 t 0 0) by (simpl; lia).
  apply fold_agree.
  - intros k' l p Hin.
    pose proof (reached_range t 0 0 k' l p Hin) as [_ Hp].
    pose proof (reached_level_bound t 0 0 k' l p Hin) as Hl.
    rewrite Z.sub_0_r in Hp. split; lia.
  - intros k'. rewrite !lookup_empty. exact I.
Qed.

Lemma exactly_unique f q1 q2 :
  Binary64.exactly f q1 -> Binary64.exactly f q2 -> (q1 == q2)%Q.
Proof.
  intros (a & Ha & Hq1) (b & Hb & Hq2).
  rewrite Ha in Hb. injection Hb as <-. now rewrite <- Hq1, <- Hq2.
Qed.

(** In exact arithmetic two entries for different keys on one level
    have different abscissas. *)
Lemma layout_x_distinct_exact t k1 k2 pos1 pos2 :
  layout t !! k1 = Some pos1 ->
  layout t !! k2 = Some pos2 ->
  k1 <> k2 ->
  level pos1 = level pos2 ->
  ~ (x pos1 == x pos2)%Q.
Proof.
  unfold layout. rewrite calculatePositions_fold.
  intros H1 H2 Hne Hlvl Hx.
  apply fold_setAt_lookup_inv in H1 as [H1 | (l1 & s1 & Hin1 & ->)];
    [now rewrite lookup_empty in H1|].
  apply fold_setAt_lookup_inv in H2 as [H2 | (l2 & s2 & Hin2 & ->)];
    [now rewrite lookup_empty in H2|].
  cbn [level positionAt] in Hlvl. subst l2.
  apply positionAt_x_inj in Hx. subst s2.
  apply Hne. eapply reached_slot_key; eassumption.
Qed.

(** With distinct keys and at most [checkedHeight] levels, the binary64
    entry of a visited node holds exactly the record of its visit. *)
Lemma binary64_entry t k lvl p :
  NoDup (preorder t) ->
  (height t <= checkedHeight)%nat ->
  (k, (lvl, p)) ∈ reached t 0 0 ->
  exists pf, Binary64.layout t !! k = Some pf /\ represents pf (positionAt lvl p).
Proof.
  intros Hnd Hh Hin.
  assert (Hq : layout t !! k = Some (positionAt lvl p)).
  { unfold layout. rewrite calculatePositions_fold.
    apply fold_setAt_lookup; [|exact Hin]. now rewrite reached_keys. }
  pose proof (layout_agree t k Hh) as Hag. rewrite Hq in Hag.
  destruct (Binary64.layout t !! k) as [pf|]; [|contradiction].
  exists pf. split; [reflexivity|exact Hag].
Qed.

(* ===================================================================== *)
(** ** Properties of the specification *)
(* ===================================================================== *)

(** C1. Inserting any sequence of pairwise distinct integers, in any
    order, into the empty tree gives a tree with the search-tree
    invariant (left keys strictly smaller, right keys greater or equal);
    its in-order traversal is strictly increasing and lists exactly the
    inserted values.  A single insertion preserves the invariant.  For a
    tree with distinct keys the invariant and the
    sortedness of the in-order traversal are equivalent. *)
Theorem insertAll_BST :
  (forall values : list Z,
     NoDup values ->
     BST (insertAll values) /\
     StronglySorted Z.lt (inorder (insertAll values)) /\
     Permutation (inorder (insertAll values)) values) /\
  (forall (t : Tree) (v : Z), BST t -> BST (insertIntoBST t v)) /\
  (forall t : Tree,
     NoDup (inorder t) ->
     (BST t <-> StronglySorted Z.lt (inorder t))).
Proof.
  split_and!.
  - intros values Hnd. unfold insertAll.
    assert (Hb : BST (fold_left insertIntoBST values Null))
      by (apply fold_insert_BST; exact I).
    assert (Hp : Permutation (inorder (fold_left insertIntoBST values Null)) values).
    { rewrite fold_insert_perm. simpl. now rewrite app_nil_r. }
    split_and!; [exact Hb| |exact Hp].
    apply sorted_le_NoDup_lt; [now apply BST_inorder_le|].
    now rewrite Hp.
  - intros t v. apply BST_insert.
  - intros t Hnd. split.
    + intros Hb. apply sorted_le_NoDup_lt; [now apply BST_inorder_le|exact Hnd].
    + apply inorder_lt_BST.
Qed.

Lemma insertAll_BST_witness :
  NoDup [20; 10; 30; 25] /\
  BST (insertAll [20; 10; 30; 25]) /\
  StronglySorted Z.lt (inorder (insertAll [20; 10; 30; 25])) /\
  Permutation (inorder (insertAll [20; 10; 30; 25])) [20; 10; 30; 25].
Proof.
  assert (Hnd : NoDup [20; 10; 30; 25]).
  { apply (bool_decide_unpack _). vm_compute. exact I. }
  split; [exact Hnd|]. apply (proj1 insertAll_BST [20; 10; 30; 25]). exact Hnd.
Defined.

(** C2. [insertIntoBST] on the empty tree returns a leaf holding the
    value; on a node with a larger key it rebuilds the node with the same
    key and right subtree and the value inserted on the left; otherwise
    (value greater or equal, ties included) with the same key and left
    subtree and the value inserted on the right. *)
Theorem insertIntoBST_cases (value : Z) :
  insertIntoBST Null value = Node value Null Null /\
  (forall k l r, value < k ->
     insertIntoBST (Node k l r) value = Node k (insertIntoBST l value) r) /\
  (forall k l r, k <= value ->
     insertIntoBST (Node k l r) value = Node k l (insertIntoBST r value)).
Proof.
  split_and!.
  - reflexivity.
  - intros k l r H. cbn [insertIntoBST].
    destruct (Z.ltb_spec value k); [reflexivity|lia].
  - intros k l r H. cbn [insertIntoBST].
    destruct (Z.ltb_spec value k); [lia|reflexivity].
Qed.

Lemma insertIntoBST_cases_witness :
  5 < 10 /\ 5 <= 5 /\
  insertIntoBST (Node 10 Null (Node 12 Null Null)) 5
    = Node 10 (insertIntoBST Null 5) (Node 12 Null Null) /\
  insertIntoBST (Node 5 (Node 1 Null Null) Null) 5
    = Node 5 (Node 1 Null Null) (insertIntoBST Null 5).
Proof.
  split; [lia|]. split; [lia|]. split.
  - apply (proj1 (proj2 (insertIntoBST_cases 5))). lia.
  - apply (proj2 (proj2 (insertIntoBST_cases 5))). lia.
Defined.

(** A repeated key.  For the tree obtained by inserting 5 twice, the
    root is visited at level 0, slot 0, yet the mapping holds for its key
    the record of the second node: level 1, x = 390, y = 100, not x = 260,
    y = 20.  So the statement for every tree fails. *)
Lemma layout_positions_duplicate_key :
  (let t := insertIntoBST (insertIntoBST Null 5) 5 in
   t = Node 5 Null (Node 5 Null Null) /\
   (5, (0, 0)) ∈ reached t 0 0 /\
   exists pos,
     layout t !! 5 = Some pos /\
     level pos = 1 /\ (x pos == 390)%Q /\ (y pos == 100)%Q /\
     ~ (x pos == 520 / 2 ^ 0 * (0 + (1 # 2)))%Q /\
     ~ (y pos == 20 + 0 * 80)%Q) /\
  ~ (forall t k lvl p,
       (k, (lvl, p)) ∈ reached t 0 0 ->
       exists pos,
         layout t !! k = Some pos /\ level pos = lvl /\
         (x pos == 520 / Qpower 2 lvl * (inject_Z p + (1 # 2)))%Q /\
         (y pos == 20 + inject_Z lvl * 80)%Q).
Proof.
  split.
  - cbv zeta. split; [reflexivity|]. split; [left|].
    exists (positionAt 1 1). split_and!; try reflexivity; vm_compute; congruence.
  - intros H.
    destruct (H (Node 5 Null (Node 5 Null Null)) 5 0 0) as (pos & Hlook & Hlvl & _).
    + left.
    + assert (Hpos : layout (Node 5 Null (Node 5 Null Null)) !! 5 = Some (positionAt 1 1))
        by reflexivity.
      rewrite Hpos in Hlook. injection Hlook as <-. discriminate Hlvl.
Qed.

(** C3 (as stated, refuted).  Two inputs refute the statement for every
    tree.  With a repeated key the entry of the key belongs to the node
    visited last (see [layout_positions_duplicate_key]).  And on deep
    levels the arithmetic rounds: inserting 10, 20, ..., 470 gives a chain
    of 47 distinct keys whose last node is visited at level 46, slot
    2^46 - 1; the program computes for it x = 520 - 64 / 2^44, not
    (520 / 2^46) * (2^46 - 1 + 1/2) = 520 - 65 / 2^44. *)
Lemma layout_positions_refuted :
  ((let t := insertIntoBST (insertIntoBST Null 5) 5 in
    t = Node 5 Null (Node 5 Null Null) /\
    (5, (0, 0)) ∈ reached t 0 0 /\
    exists pos,
      layout t !! 5 = Some pos /\
      level pos = 1 /\ (x pos == 390)%Q /\ (y pos == 100)%Q /\
      ~ (x pos == 520 / 2 ^ 0 * (0 + (1 # 2)))%Q /\
      ~ (y pos == 20 + 0 * 80)%Q) /\
   ~ (forall t k lvl p,
        (k, (lvl, p)) ∈ reached t 0 0 ->
        exists pos,
          layout t !! k = Some pos /\ level pos = lvl /\
          (x pos == 520 / Qpower 2 lvl * (inject_Z p + (1 # 2)))%Q /\
          (y pos == 20 + inject_Z lvl * 80)%Q)) /\
  (let t := insertAll (chainKeys 47) in
   NoDup (preorder t) /\
   (470, (46, 2 ^ 46 - 1)) ∈ reached t 0 0 /\
   exists pf,
     Binary64.layout t !! 470 = Some pf /\
     Binary64.exactly (Binary64.level pf) 46 /\
     Binary64.exactly (Binary64.x pf) (520 - 64 / Qpower 2 44) /\
     ~ Binary64.exactly (Binary64.x pf)
         (520 / Qpower 2 46 * (inject_Z (2 ^ 46 - 1) + (1 # 2)))).
Proof.
  split; [exact layout_positions_duplicate_key|].
  cbv zeta. split_and!.
  - apply (bool_decide_unpack _). vm_compute. exact I.
  - apply (bool_decide_unpack _). vm_compute. exact I.
  - exists (Binary64.positionAt (Binary64.ofZ 46) (Binary64.ofZ (2 ^ 46 - 1))).
    split_and!.
    + vm_compute. reflexivity.
    + apply exactlyb_spec. vm_compute. reflexivity.
    + apply exactlyb_spec. vm_compute. reflexivity.
    + intros Hex.
      assert (Hreal : Binary64.exactly
                (Binary64.x (Binary64.positionAt (Binary64.ofZ 46)
                                                 (Binary64.ofZ (2 ^ 46 - 1))))
                (520 - 64 / Qpower 2 44))
        by (apply exactlyb_spec; vm_compute; reflexivity).
      pose proof (exactly_unique _ _ _ Hreal Hex) as Heq.
      vm_compute in Heq. discriminate Heq.
Qed.

(** C3 (amended).  For every tree with pairwise distinct keys, each node
    visited at [(lvl, p)] with [lvl <= 45] by the walk started at [(0, 0)]
    (left child at [(lvl + 1, p * 2)], right child at
    [(lvl + 1, p * 2 + 1)]) is mapped to x = (520 / 2^lvl) * (p + 1/2),
    y = 20 + lvl * 80 and level [lvl]; after inserting [10; 20; 30] key 30
    sits at level 2, slot 3, x = 455, y = 180.  Level 45 is the last on
    which the binary64 arithmetic of the program is exact for every slot.
    For trees of at most 12 levels the same is proved of the binary64
    layout: the record it holds stands for exactly these values. *)
Theorem layout_positions :
  (forall t k lvl p,
     NoDup (preorder t) ->
     (k, (lvl, p)) ∈ reached t 0 0 ->
     lvl <= 45 ->
     layout t !! k =
       Some (mkPos (520 / Qpower 2 lvl * (inject_Z p + (1 # 2)))%Q
                   (20 + inject_Z lvl * 80)%Q lvl)) /\
  (forall id l r lvl p,
     reached (Node id l r) lvl p =
       (id, (lvl, p)) :: reached l (lvl + 1) (p * 2)
                      ++ reached r (lvl + 1) (p * 2 + 1)) /\
  (let t := insertAll [10; 20; 30] in
   (30, (2, 3)) ∈ reached t 0 0 /\
   exists pos,
     layout t !! 30 = Some pos /\
     level pos = 2 /\ (x pos == 455)%Q /\ (y pos == 180)%Q) /\
  (forall t k lvl p,
     NoDup (preorder t) ->
     (height t <= 12)%nat ->
     (k, (lvl, p)) ∈ reached t 0 0 ->
     exists pf,
       Binary64.layout t !! k = Some pf /\
       Binary64.exactly (Binary64.x pf)
         (520 / Qpower 2 lvl * (inject_Z p + (1 # 2))) /\
       Binary64.exactly (Binary64.y pf) (20 + inject_Z lvl * 80) /\
       Binary64.exactly (Binary64.level pf) (inject_Z lvl)) /\
  (let t := insertAll [10; 20; 30] in
   exists pf,
     Binary64.layout t !! 30 = Some pf /\
     Binary64.exactly (Binary64.level pf) 2 /\
     Binary64.exactly (Binary64.x pf) 455 /\
     Binary64.exactly (Binary64.y pf) 180).
Proof.
  split_and!.
  - intros t k lvl p Hnd Hin _. unfold layout.
    rewrite calculatePositions_fold.
    apply (fold_setAt_lookup _ _ k lvl p); [|exact Hin].
    now rewrite reached_keys.
  - reflexivity.
  - cbv zeta. split.
    + vm_compute. do 2 right. left.
    + exists (positionAt 2 3). split_and!; reflexivity.
  - intros t k lvl p Hnd Hh Hin.
    destruct (binary64_entry t k lvl p Hnd Hh Hin) as (pf & Hpf & Hx & Hy & Hl).
    exists pf. split_and!; assumption.
  - cbv zeta. exists (Binary64.positionAt (Binary64.ofZ 2) (Binary64.ofZ 3)).
    split_and!; [vm_compute; reflexivity|..]; apply exactlyb_spec; vm_compute; reflexivity.
Qed.

Lemma layout_positions_witness :
  NoDup (preorder (insertAll [20; 10; 30])) /\
  (30, (1, 1)) ∈ reached (insertAll [20; 10; 30]) 0 0 /\
  1 <= 45 /\
  Nat.le (height (insertAll [20; 10; 30])) 12 /\
  layout (insertAll [20; 10; 30]) !! 30 =
    Some (mkPos (520 / Qpower 2 1 * (inject_Z 1 + (1 # 2)))%Q
                (20 + inject_Z 1 * 80)%Q 1) /\
  exists pf,
    Binary64.layout (insertAll [20; 10; 30]) !! 30 = Some pf /\
    Binary64.exactly (Binary64.x pf) (520 / Qpower 2 1 * (inject_Z 1 + (1 # 2))) /\
    Binary64.exactly (Binary64.y pf) (20 + inject_Z 1 * 80) /\
    Binary64.exactly (Binary64.level pf) (inject_Z 1).
Proof.
  assert (Hnd : NoDup (preorder (insertAll [20; 10; 30]))).
  { apply (bool_decide_unpack _). vm_compute. exact I. }
  assert (Hin : (30, (1, 1)) ∈ reached (insertAll [20; 10; 30]) 0 0).
  { vm_compute. do 2 right. left. }
  assert (Hlvl : 1 <= 45) by lia.
  assert (Hh : Nat.le (height (insertAll [20; 10; 30])) 12) by (vm_compute; lia).
  split; [exact Hnd|]. split; [exact Hin|]. split; [exact Hlvl|]. split; [exact Hh|].
  split.
  - exact (proj1 layout_positions (insertAll [20; 10; 30]) 30 1 1 Hnd Hin Hlvl).
  - exact (proj1 (proj2 (proj2 (proj2 layout_positions)))
             (insertAll [20; 10; 30]) 30 1 1 Hnd Hh Hin).
Defined.

(** C4. The mapping computed by the layout has an entry for exactly the
    keys of the tree (whether or not they are distinct), and is empty for
    the empty tree. *)
Theorem layout_keys (t : Tree) :
  (forall k, is_Some (layout t !! k) <-> k ∈ preorder t) /\
  dom (layout t) = list_to_set (preorder t) /\
  layout Null = ∅.
Proof.
  assert (Hdom : dom (layout t) = list_to_set (preorder t)).
  { unfold layout. rewrite calculatePositions_fold, fold_setAt_dom, reached_keys.
    rewrite dom_empty_L. apply leibniz_equiv. apply (left_id ∅ (∪)). }
  split_and!; [|exact Hdom|reflexivity].
  intros k. rewrite <- elem_of_dom, Hdom. apply elem_of_list_to_set.
Qed.

(** C5 (as stated, refuted).  Inserting 10, 20, ..., 550 and then 545
    and 560 gives a tree of 57 distinct keys in which 545 and 560 are the
    two children of 550, on level 55, slots 2^55 - 2 and 2^55 - 1.  The
    program passes 2^55 as [position] to both and stores x = 520 for
    both. *)
Lemma layout_collision_binary64 :
  let t := insertAll (chainKeys 55 ++ [545; 560]) in
  NoDup (preorder t) /\
  (545, (55, 2 ^ 55 - 2)) ∈ reached t 0 0 /\
  (560, (55, 2 ^ 55 - 1)) ∈ reached t 0 0 /\
  exists pf1 pf2,
    Binary64.layout t !! 545 = Some pf1 /\
    Binary64.layout t !! 560 = Some pf2 /\
    Binary64.level pf1 = Binary64.level pf2 /\
    Binary64.exactly (Binary64.level pf1) 55 /\
    Binary64.x pf1 = Binary64.x pf2 /\
    Binary64.exactly (Binary64.x pf1) 520.
Proof.
  cbv zeta. split_and!.
  - apply (bool_decide_unpack _). vm_compute. exact I.
  - apply (bool_decide_unpack _). vm_compute. exact I.
  - apply (bool_decide_unpack _). vm_compute. exact I.
  - exists (Binary64.positionAt (Binary64.ofZ 55) (Binary64.ofZ (2 ^ 55))),
           (Binary64.positionAt (Binary64.ofZ 55) (Binary64.ofZ (2 ^ 55))).
    split_and!; try (vm_compute; reflexivity);
      apply exactlyb_spec; vm_compute; reflexivity.
Qed.

(** C5 (amended).  Two entries of the layout of one tree that belong to
    different keys and carry the same level, at most 45, have different x
    coordinates (with distinct keys the entries are the nodes).  Level 45
    is the last on which the binary64 arithmetic of the program is exact
    for every slot.  For trees of at most 12 levels the same is proved of
    the binary64 layout. *)
Theorem layout_no_collision :
  (forall (t : Tree) (k1 k2 : Z) (pos1 pos2 : NodePosition),
     layout t !! k1 = Some pos1 ->
     layout t !! k2 = Some pos2 ->
     k1 <> k2 ->
     level pos1 = level pos2 ->
     level pos1 <= 45 ->
     ~ (x pos1 == x pos2)%Q) /\
  (forall (t : Tree) (k1 k2 : Z) (pf1 pf2 : Binary64.NodePosition),
     (height t <= 12)%nat ->
     Binary64.layout t !! k1 = Some pf1 ->
     Binary64.layout t !! k2 = Some pf2 ->
     k1 <> k2 ->
     Binary64.level pf1 = Binary64.level pf2 ->
     Binary64.x pf1 <> Binary64.x pf2).
Proof.
  split.
  - intros t k1 k2 pos1 pos2 H1 H2 Hne Hlvl _.
    now apply (layout_x_distinct_exact t k1 k2).
  - intros t k1 k2 pf1 pf2 Hh H1 H2 Hne Hlvl Hx.
    pose proof (layout_agree t k1 Hh) as Ha1. rewrite H1 in Ha1.
    pose proof (layout_agree t k2 Hh) as Ha2. rewrite H2 in Ha2.
    destruct (layout t !! k1) as [pos1|] eqn:E1; [|contradiction].
    destruct (layout t !! k2) as [pos2|] eqn:E2; [|contradiction].
    destruct Ha1 as (Hx1 & _ & Hl1). destruct Ha2 as (Hx2 & _ & Hl2).
    rewrite Hlvl in Hl1. rewrite Hx in Hx1.
    apply (layout_x_distinct_exact t k1 k2 pos1 pos2 E1 E2 Hne).
    + apply inject_Z_injective. exact (exactly_unique _ _ _ Hl1 Hl2).
    + exact (exactly_unique _ _ _ Hx1 Hx2).
Qed.

Lemma layout_no_collision_witness :
  let t := insertAll [20; 10; 30] in
  layout t !! 10 = Some (positionAt 1 0) /\
  layout t !! 30 = Some (positionAt 1 1) /\
  10 <> 30 /\
  level (positionAt 1 0) = level (positionAt 1 1) /\
  level (positionAt 1 0) <= 45 /\
  ~ (x (positionAt 1 0) == x (positionAt 1 1))%Q /\
  (height t <= 12)%nat /\
  Binary64.layout t !! 10
    = Some (Binary64.positionAt (Binary64.ofZ 1) (Binary64.ofZ 0)) /\
  Binary64.layout t !! 30
    = Some (Binary64.positionAt (Binary64.ofZ 1) (Binary64.ofZ 1)) /\
  Binary64.x (Binary64.positionAt (Binary64.ofZ 1) (Binary64.ofZ 0))
    <> Binary64.x (Binary64.positionAt (Binary64.ofZ 1) (Binary64.ofZ 1)).
Proof.
  cbv zeta.
  assert (H1 : layout (insertAll [20; 10; 30]) !! 10 = Some (positionAt 1 0))
    by (vm_compute; reflexivity).
  assert (H2 : layout (insertAll [20; 10; 30]) !! 30 = Some (positionAt 1 1))
    by (vm_compute; reflexivity).
  assert (Hne : 10 <> 30) by lia.
  assert (Hle : level (positionAt 1 0) <= 45) by (simpl; lia).
  assert (Hh : Nat.le (height (insertAll [20; 10; 30])) 12) by (vm_compute; lia).
  assert (F1 : Binary64.layout (insertAll [20; 10; 30]) !! 10
               = Some (Binary64.positionAt (Binary64.ofZ 1) (Binary64.ofZ 0)))
    by (vm_compute; reflexivity).
  assert (F2 : Binary64.layout (insertAll [20; 10; 30]) !! 30
               = Some (Binary64.positionAt (Binary64.ofZ 1) (Binary64.ofZ 1)))
    by (vm_compute; reflexivity).
  split; [exact H1|]. split; [exact H2|]. split; [exact Hne|].
  split; [reflexivity|]. split; [exact Hle|].
  split; [exact (proj1 layout_no_collision (insertAll [20; 10; 30]) 10 30 _ _
                   H1 H2 Hne eq_refl Hle)|].
  split; [exact Hh|]. split; [exact F1|]. split; [exact F2|].
  exact (proj2 layout_no_collision (insertAll [20; 10; 30]) 10 30 _ _
           Hh F1 F2 Hne eq_refl).
Defined.





(** C8. Insertion mutates nothing and shares what it does not rebuild.
    If [root] denotes the tree [t] in the store [h], then
    [insertIntoBST(root, v)] returns a reference [q] in a store [h'] such
    that every object of [h] is unchanged in [h'], [root] still denotes
    [t], [q] denotes the tree with [v] inserted, and along the search path
    each new object holds, on the side not followed, the very same
    reference as the object it copies: the right one when [v < id], the
    left one when [v >= id]. *)
Theorem insertIntoBST_shares (h : list Store.TreeNode) (root : option nat)
    (t : Tree) (v : Z) (fuel : nat) :
  (height t < fuel)%nat ->
  Store.repr h root t ->
  exists q h',
    Store.insertIntoBST fuel h root v = Some (q, h') /\
    Store.preserved h h' /\
    Store.repr h' root t /\
    Store.repr h' (Some q) (insertIntoBST t v) /\
    Store.sharesOffPath h h' v root q /\
    (forall p o, root = Some p -> h !! p = Some o ->
       exists o', h' !! q = Some o' /\ Store.id o' = Store.id o /\
         (v < Store.id o -> Store.right o' = Store.right o) /\
         (Store.id o <= v -> Store.left o' = Store.left o)).
Proof.
  intros Hfuel Hrepr.
  destruct (StoreFacts.insertIntoBST_spec t fuel h root v Hfuel Hrepr)
    as (q & h' & Hrun & Hpres & Hnew & Hshare).
  exists q, h'. split_and!; auto.
  - eapply StoreFacts.repr_preserved; eassumption.
  - intros p o -> Hlook.
    inversion Hshare as [| p' o1 q' q1 Hl1 Hlt Hfr Hq Hrest
                           | p' o1 q' q1 Hl1 Hge Hfr Hq Hrest]; subst.
    + rewrite Hlook in Hl1. injection Hl1 as <-.
      eexists. split; [exact Hq|]. cbn. split_and!; auto. lia.
    + rewrite Hlook in Hl1. injection Hl1 as <-.
      eexists. split; [exact Hq|]. cbn. split_and!; auto. lia.
Qed.

Lemma insertIntoBST_shares_witness :
  let h := Store.example_store in
  let t := insertAll [10; 20] in
  (height t < 3)%nat /\
  Store.repr h (Some 1%nat) t /\
  exists q h',
    Store.insertIntoBST 3 h (Some 1%nat) 5 = Some (q, h') /\
    Store.preserved h h' /\
    Store.repr h' (Some 1%nat) t /\
    Store.repr h' (Some q) (insertIntoBST t 5) /\
    Store.sharesOffPath h h' 5 (Some 1%nat) q /\
    (forall p o, Some 1%nat = Some p -> h !! p = Some o ->
       exists o', h' !! q = Some o' /\ Store.id o' = Store.id o /\
         (5 < Store.id o -> Store.right o' = Store.right o) /\
         (Store.id o <= 5 -> Store.left o' = Store.left o)).
Proof.
  cbv zeta.
  assert (Hfuel : Nat.lt (height (insertAll [10; 20])) 3) by (vm_compute; lia).
  assert (Hrepr : Store.repr Store.example_store (Some 1%nat) (insertAll [10; 20])).
  { vm_compute. exists 1%nat, None, (Some 0%nat). split_and!; try reflexivity.
    exists 0%nat, None, None. split_and!; reflexivity. }
  split; [exact Hfuel|]. split; [exact Hrepr|].
  exact (insertIntoBST_shares Store.example_store (Some 1%nat)
           (insertAll [10; 20]) 5 3 Hfuel Hrepr).
Defined.

(** C9. [insertIntoBST] is total and accepts a value that is already a
    key: the result has exactly one node more, its keys are those of the
    tree plus one more occurrence of the value, and at a node whose key
    equals the value the insertion continues in the right subtree. *)
Theorem insertIntoBST_duplicate (t : Tree) (v : Z) :
  nodeCount (insertIntoBST t v) = S (nodeCount t) /\
  Permutation (inorder (insertIntoBST t v)) (v :: inorder t) /\
  (forall l r, insertIntoBST (Node v l r) v = Node v l (insertIntoBST r v)) /\
  (forall fuel h root, (height t < fuel)%nat -> Store.repr h root t ->
     is_Some (Store.insertIntoBST fuel h root v)).
Proof.
  split_and!.
  - apply nodeCount_insert.
  - apply inorder_insert_perm.
  - intros l r. cbn [insertIntoBST]. now rewrite Z.ltb_irrefl.
  - intros fuel h root Hfuel Hrepr.
    destruct (StoreFacts.insertIntoBST_spec t fuel h root v Hfuel Hrepr)
      as (q & h' & -> & _). eauto.
Qed.

Lemma insertIntoBST_duplicate_witness :
  let t := insertAll [10; 20] in
  (height t < 3)%nat /\
  Store.repr Store.example_store (Some 1%nat) t /\
  nodeCount (insertIntoBST t 20) = 3%nat /\
  insertIntoBST t 20 = Node 10 Null (Node 20 Null (Node 20 Null Null)) /\
  is_Some (Store.insertIntoBST 3 Store.example_store (Some 1%nat) 20).
Proof.
  cbv zeta.
  assert (Hfuel : Nat.lt (height (insertAll [10; 20])) 3) by (vm_compute; lia).
  assert (Hrepr : Store.repr Store.example_store (Some 1%nat) (insertAll [10; 20])).
  { vm_compute. exists 1%nat, None, (Some 0%nat). split_and!; try reflexivity.
    exists 0%nat, None, None. split_and!; reflexivity. }
  split; [exact Hfuel|]. split; [exact Hrepr|].
  split; [exact (proj1 (insertIntoBST_duplicate (insertAll [10; 20]) 20))|].
  split; [reflexivity|].
  exact (proj2 (proj2 (proj2 (insertIntoBST_duplicate (insertAll [10; 20]) 20)))
           3%nat Store.example_store (Some 1%nat) Hfuel Hrepr).
Defined.

(** C10. When the mapping has no entry for a child, edge extraction
    raises nothing: it draws no line to that child and skips the whole
    subtree below it, so the result is the one for the tree with that
    subtree removed; every line it does draw joins two nodes that both
    have a position. *)
Theorem renderLines_missing_child (positions : gmap Z NodePosition) (xOffset : Q) :
  (forall id cid a b r,
     positions !! cid = None ->
     renderLines (Node id (Node cid a b) r) positions xOffset =
     renderLines (Node id Null r) positions xOffset) /\
  (forall id cid a b l,
     positions !! cid = None ->
     renderLines (Node id l (Node cid a b)) positions xOffset =
     renderLines (Node id l Null) positions xOffset) /\
  (forall t line,
     line ∈ renderLines t positions xOffset ->
     exists e, e ∈ edges t /\ lineOfEdge positions xOffset line e).
Proof.
  split_and!.
  - intros id cid a b r Hnone. rewrite !renderLines_Node.
    f_equal. unfold childLines. rewrite Hnone. now destruct (positions !! id).
  - intros id cid a b l Hnone. rewrite !renderLines_Node.
    f_equal. unfold childLines. rewrite Hnone. now destruct (positions !! id).
  - intros t line. apply renderLines_sound.
Qed.

Lemma renderLines_missing_child_witness :
  let positions := delete 20 (layout (insertAll [10; 20; 30; 5])) in
  positions !! 20 = None /\
  renderLines (insertAll [10; 20; 30; 5]) positions 0 =
  renderLines (Node 10 (Node 5 Null Null) Null) positions 0 /\
  length (renderLines (insertAll [10; 20; 30; 5]) positions 0) = 1%nat.
Proof.
  cbv zeta.
  assert (Hnone : delete 20 (layout (insertAll [10; 20; 30; 5])) !! 20 = None)
    by (vm_compute; reflexivity).
  split; [exact Hnone|]. split; [|reflexivity].
  exact (proj1 (proj2 (renderLines_missing_child _ 0%Q))
           10 20 Null (Node 30 Null Null) (Node 5 Null Null) Hnone).
Defined.


(* ===================================================================== *)
(** ** Further properties of the code *)
(* ===================================================================== *)

(* --------------------------------------------------------------------- *)
(** *** Shape of the tree *)

Lemma height_insert t v :
  (height t <= height (insertIntoBST t v) <= S (height t))%nat.
Proof.
  induction t as [|k l IHl r IHr]; simpl; [lia|].
  destruct (v <? k); simpl; lia.
Qed.

Lemma height_le_nodeCount t : (height t <= nodeCount t)%nat.
Proof. induction t as [|k l IHl r IHr]; simpl; lia. Qed.

Lemma nodeCount_fold vs t :
  nodeCount (fold_left insertIntoBST vs t) = (nodeCount t + length vs)%nat.
Proof.
  revert t. induction vs as [|v vs IH]; intros t; simpl; [lia|].
  rewrite IH, nodeCount_insert. lia.
Qed.

Lemma AllKeys_elem P t k : AllKeys P t -> k ∈ preorder t -> P k.
Proof.
  induction t as [|k0 l IHl r IHr]; simpl.
  - intros _ H. now apply elem_of_nil in H.
  - intros (Hk & Hl & Hr). rewrite elem_of_cons, elem_of_app.
    intros [-> | [H | H]]; auto.
Qed.

Lemma rightSpine_insert t v :
  rightSpine t = true -> AllKeys (fun k => k <= v) t ->
  rightSpine (insertIntoBST t v) = true /\
  height (insertIntoBST t v) = S (height t).
Proof.
  induction t as [|k l IHl r IHr]; simpl; [auto|].
  destruct l as [|kl ll lr]; [|discriminate].
  intros Hs (Hk & _ & Hr).
  destruct (Z.ltb_spec v k); [lia|]. simpl.
  destruct (IHr Hs Hr) as [Hs' Hh]. split; [exact Hs'|]. rewrite Hh. lia.
Qed.

Lemma rightSpine_fold vs : forall t,
  rightSpine t = true ->
  StronglySorted Z.le vs ->
  Forall (fun v => AllKeys (fun k => k <= v) t) vs ->
  rightSpine (fold_left insertIntoBST vs t) = true /\
  height (fold_left insertIntoBST vs t) = (height t + length vs)%nat.
Proof.
  induction vs as [|v vs IH]; intros t Hs Hsorted Hall; simpl.
  - split; [exact Hs|lia].
  - apply StronglySorted_inv in Hsorted as [Hsorted Hv].
    apply Forall_cons in Hall as [Hvt Hall].
    destruct (rightSpine_insert t v Hs Hvt) as [Hs' Hh].
    destruct (IH (insertIntoBST t v) Hs' Hsorted) as [Hs2 Hh2].
    + rewrite Forall_forall in *. intros v' Hv'.
      apply AllKeys_insert; [now apply Hall|now apply Hv].
    + split; [exact Hs2|]. rewrite Hh2, Hh. lia.
Qed.

(** X1. An insertion never lowers the height and raises it by at most
    one; after inserting any sequence the tree has one node per inserted
    value and a height of at most their number. *)
Theorem insert_height_bounds :
  (forall t v,
     (height t <= height (insertIntoBST t v) <= S (height t))%nat) /\
  (forall vs : list Z,
     nodeCount (insertAll vs) = length vs /\
     (height (insertAll vs) <= length vs)%nat).
Proof.
  split; [apply height_insert|].
  intros vs. unfold insertAll.
  pose proof (nodeCount_fold vs Null) as Hn. simpl in Hn.
  split; [exact Hn|]. rewrite <- Hn. apply height_le_nodeCount.
Qed.

(** X2. There is no rebalancing: inserting a non-decreasing sequence
    gives a chain of right children whose height is the length of the
    sequence. *)
Theorem insertAll_sorted_chain (vs : list Z) :
  StronglySorted Z.le vs ->
  rightSpine (insertAll vs) = true /\
  height (insertAll vs) = length vs.
Proof.
  intros Hsorted.
  destruct (rightSpine_fold vs Null eq_refl Hsorted) as [Hs Hh].
  - apply Forall_forall. intros v _. exact I.
  - split; [exact Hs|exact Hh].
Qed.

Lemma insertAll_sorted_chain_witness :
  StronglySorted Z.le [10; 20; 20; 30] /\
  rightSpine (insertAll [10; 20; 20; 30]) = true /\
  height (insertAll [10; 20; 20; 30]) = 4%nat.
Proof.
  assert (Hs : StronglySorted Z.le [10; 20; 20; 30]).
  { repeat (constructor; [|repeat (constructor; try lia)]). constructor. }
  split; [exact Hs|]. exact (insertAll_sorted_chain [10; 20; 20; 30] Hs).
Defined.

(* --------------------------------------------------------------------- *)
(** *** Geometry of the layout *)

Lemma slot_width_pos lvl : (0 < containerWidth / Qpower 2 lvl)%Q.
Proof.
  assert (Hpow : (0 < Qpower 2 lvl)%Q) by (apply Qpower_0_lt; reflexivity).
  unfold containerWidth. apply Qlt_shift_div_l; [exact Hpow|]. lra.
Qed.

Lemma slot_width_succ lvl :
  (containerWidth / Qpower 2 (lvl + 1) == containerWidth / Qpower 2 lvl * (1 # 2))%Q.
Proof.
  assert (Hpow : (0 < Qpower 2 lvl)%Q) by (apply Qpower_0_lt; reflexivity).
  rewrite Qpower_plus by discriminate.
  change (Qpower 2 1) with 2%Q. field. lra.
Qed.

(** The abscissa of a node visited below [(lvl, p)] lies strictly inside
    slot [p] of level [lvl]. *)
Lemma reached_block t : forall lvl p k l' s,
  (k, (l', s)) ∈ reached t lvl p ->
  (containerWidth / Qpower 2 lvl * inject_Z p < x (positionAt l' s) /\
   x (positionAt l' s) < containerWidth / Qpower 2 lvl * (inject_Z p + 1))%Q.
Proof.
  induction t as [|k0 l IHl r IHr]; intros lvl p k l' s; cbn [reached].
  - intros H. now apply elem_of_nil in H.
  - pose proof (slot_width_pos lvl) as Hw.
    pose proof (slot_width_succ lvl) as Hsucc.
    rewrite elem_of_cons, elem_of_app. intros [Heq | [Hin | Hin]].
    + injection Heq as -> -> ->. unfold positionAt. cbn [x].
      clear Hsucc. generalize dependent (containerWidth / Qpower 2 lvl)%Q.
      generalize (inject_Z p). intros q w Hw. clear - Hw. lra.
    + apply IHl in Hin. rewrite Hsucc, inject_Z_mult in Hin.
      change (inject_Z 2) with 2%Q in Hin.
      clear Hsucc. generalize dependent (containerWidth / Qpower 2 lvl)%Q.
      generalize (inject_Z p) (x (positionAt l' s)). intros q xs w Hw Hin.
      clear - Hw Hin. lra.
    + apply IHr in Hin. rewrite Hsucc, inject_Z_plus, inject_Z_mult in Hin.
      change (inject_Z 2) with 2%Q in Hin. change (inject_Z 1) with 1%Q in Hin.
      clear Hsucc. generalize dependent (containerWidth / Qpower 2 lvl)%Q.
      generalize (inject_Z p) (x (positionAt l' s)). intros q xs w Hw Hin.
      clear - Hw Hin. lra.
Qed.

(** The nodes of the left subtree lie to the left of the node, those of
    the right subtree to its right. *)
Lemma reached_sides l r lvl p k l' s :
  ((k, (l', s)) ∈ reached l (lvl + 1) (p * 2) ->
     (x (positionAt l' s) < x (positionAt lvl p))%Q) /\
  ((k, (l', s)) ∈ reached r (lvl + 1) (p * 2 + 1) ->
     (x (positionAt lvl p) < x (positionAt l' s))%Q).
Proof.
  pose proof (slot_width_pos lvl) as Hw.
  pose proof (slot_width_succ lvl) as Hsucc.
  split; intros Hin; apply reached_block in Hin;
    rewrite Hsucc, ?inject_Z_plus, inject_Z_mult in Hin;
    change (inject_Z 2) with 2%Q in Hin; change (inject_Z 1) with 1%Q in Hin;
    clear Hsucc; generalize dependent (x (positionAt l' s));
    unfold positionAt; cbn [x];
    generalize dependent (containerWidth / Qpower 2 lvl)%Q;
    generalize (inject_Z p); intros q w Hw xs Hin; clear - Hw Hin; lra.
Qed.


Lemma layout_entry_reached t k pos :
  layout t !! k = Some pos ->
  exists lvl p, (k, (lvl, p)) ∈ reached t 0 0 /\ pos = positionAt lvl p.
Proof.
  unfold layout. rewrite calculatePositions_fold. intros H.
  apply fold_setAt_lookup_inv in H as [H | H]; [|exact H].
  now rewrite lookup_empty in H.
Qed.

(** X3. Every entry of a computed layout on a level of at most 45 (the
    levels on which the binary64 arithmetic of the program is exact) lies
    strictly inside the canvas width, 0 < x < 520, on the row of its
    level, y = 20 + 80 * level, and its level is at least 0 and below the
    height of the tree. *)
Theorem layout_bounds (t : Tree) (k : Z) (pos : NodePosition) :
  layout t !! k = Some pos ->
  level pos <= 45 ->
  (0 < x pos)%Q /\ (x pos < 520)%Q /\
  (y pos == 20 + 80 * inject_Z (level pos))%Q /\
  0 <= level pos < Z.of_nat (height t).
Proof.
  intros H _. apply layout_entry_reached in H as (lvl & p & Hin & ->).
  pose proof (reached_block t 0 0 k lvl p Hin) as [Hlo Hhi].
  pose proof (reached_level_bound t 0 0 k lvl p Hin) as Hlvl.
  change (containerWidth / Qpower 2 0 * inject_Z 0)%Q with (520 / 1 * 0)%Q in Hlo.
  change (containerWidth / Qpower 2 0 * (inject_Z 0 + 1))%Q
    with (520 / 1 * (0 + 1))%Q in Hhi.
  split_and!.
  - eapply Qle_lt_trans; [|exact Hlo]. discriminate.
  - eapply Qlt_le_trans; [exact Hhi|]. discriminate.
  - unfold positionAt, verticalSpacing. cbn [y level]. ring.
  - cbn [level positionAt]. lia.
  - cbn [level positionAt]. lia.
Qed.

Lemma layout_bounds_witness :
  layout (insertAll [20; 10; 30]) !! 30 = Some (positionAt 1 1) /\
  level (positionAt 1 1) <= 45 /\
  (0 < x (positionAt 1 1))%Q /\ (x (positionAt 1 1) < 520)%Q /\
  (y (positionAt 1 1) == 20 + 80 * inject_Z (level (positionAt 1 1)))%Q /\
  0 <= level (positionAt 1 1) < Z.of_nat (height (insertAll [20; 10; 30])).
Proof.
  assert (H : layout (insertAll [20; 10; 30]) !! 30 = Some (positionAt 1 1))
    by (vm_compute; reflexivity).
  assert (Hl : level (positionAt 1 1) <= 45) by (simpl; lia).
  split; [exact H|]. split; [exact Hl|]. exact (layout_bounds _ 30 _ H Hl).
Defined.

(** In a search tree the walk meets smaller keys further left. *)
Lemma reached_order t : forall lvl p k1 l1 s1 k2 l2 s2,
  BST t ->
  (k1, (l1, s1)) ∈ reached t lvl p ->
  (k2, (l2, s2)) ∈ reached t lvl p ->
  k1 < k2 ->
  (x (positionAt l1 s1) < x (positionAt l2 s2))%Q.
Proof.
  induction t as [|k0 l IHl r IHr]; intros lvl p k1 l1 s1 k2 l2 s2; cbn [reached BST].
  - intros _ H. now apply elem_of_nil in H.
  - intros (Hl & Hr & Bl & Br). rewrite !elem_of_cons, !elem_of_app.
    assert (Hkl : forall k l' s, (k, (l', s)) ∈ reached l (lvl + 1) (p * 2) -> k < k0).
    { intros k l' s Hin. apply (AllKeys_elem _ l k Hl).
      rewrite <- (reached_keys l (lvl + 1) (p * 2)).
      apply list_elem_of_fmap. exists (k, (l', s)). auto. }
    assert (Hkr : forall k l' s, (k, (l', s)) ∈ reached r (lvl + 1) (p * 2 + 1) -> k0 <= k).
    { intros k l' s Hin. apply (AllKeys_elem _ r k Hr).
      rewrite <- (reached_keys r (lvl + 1) (p * 2 + 1)).
      apply list_elem_of_fmap. exists (k, (l', s)). auto. }
    intros [H1 | [H1 | H1]] [H2 | [H2 | H2]] Hlt;
      try (injection H1 as -> -> ->); try (injection H2 as -> -> ->);
      try (apply Hkl in H1 as Hk1); try (apply Hkr in H1 as Hk1);
      try (apply Hkl in H2 as Hk2); try (apply Hkr in H2 as Hk2);
      try lia.
    + now apply (reached_sides l r lvl p k2 l2 s2).
    + now apply (reached_sides l r lvl p k1 l1 s1).
    + eapply IHl; eassumption.
    + eapply Qlt_trans.
      * apply (reached_sides l r lvl p k1 l1 s1). exact H1.
      * apply (reached_sides l r lvl p k2 l2 s2). exact H2.
    + eapply IHr; eassumption.
Qed.

(** X4. The layout of a search tree keeps the order of the keys: of two
    keys with entries on levels of at most 45 (where the binary64
    arithmetic of the program is exact) the smaller one is drawn strictly
    further left. *)
Theorem layout_order (t : Tree) (k1 k2 : Z) (pos1 pos2 : NodePosition) :
  BST t ->
  layout t !! k1 = Some pos1 ->
  layout t !! k2 = Some pos2 ->
  level pos1 <= 45 ->
  level pos2 <= 45 ->
  k1 < k2 ->
  (x pos1 < x pos2)%Q.
Proof.
  intros Hb H1 H2 _ _ Hlt.
  apply layout_entry_reached in H1 as (l1 & s1 & Hin1 & ->).
  apply layout_entry_reached in H2 as (l2 & s2 & Hin2 & ->).
  eapply reached_order; eassumption.
Qed.

Lemma layout_order_witness :
  let t := insertAll [20; 10; 30; 25] in
  BST t /\
  layout t !! 20 = Some (positionAt 0 0) /\
  layout t !! 25 = Some (positionAt 2 2) /\
  level (positionAt 0 0) <= 45 /\ level (positionAt 2 2) <= 45 /\
  20 < 25 /\
  (x (positionAt 0 0) < x (positionAt 2 2))%Q.
Proof.
  cbv zeta.
  assert (Hb : BST (insertAll [20; 10; 30; 25])).
  { apply isBST_spec. vm_compute. reflexivity. }
  assert (H1 : layout (insertAll [20; 10; 30; 25]) !! 20 = Some (positionAt 0 0))
    by (vm_compute; reflexivity).
  assert (H2 : layout (insertAll [20; 10; 30; 25]) !! 25 = Some (positionAt 2 2))
    by (vm_compute; reflexivity).
  assert (Hlt : 20 < 25) by lia.
  assert (Hl1 : level (positionAt 0 0) <= 45) by (simpl; lia).
  assert (Hl2 : level (positionAt 2 2) <= 45) by (simpl; lia).
  split; [exact Hb|]. split; [exact H1|]. split; [exact H2|].
  split; [exact Hl1|]. split; [exact Hl2|]. split; [exact Hlt|].
  exact (layout_order _ 20 25 _ _ Hb H1 H2 Hl1 Hl2 Hlt).
Defined.

(** Neighbouring slots of one level are one slot width apart. *)
Lemma positionAt_step lvl s1 s2 :
  s1 < s2 ->
  (x (positionAt lvl s1) + containerWidth / Qpower 2 lvl <= x (positionAt lvl s2))%Q.
Proof.
  intros Hlt. pose proof (slot_width_pos lvl) as Hw.
  unfold positionAt. cbn [x].
  assert (Hq : (inject_Z s1 + 1 <= inject_Z s2)%Q).
  { change 1%Q with (inject_Z 1). rewrite <- inject_Z_plus, <- Zle_Qle. lia. }
  generalize dependent (containerWidth / Qpower 2 lvl)%Q.
  generalize dependent (inject_Z s1). generalize dependent (inject_Z s2).
  intros q2 q1 Hq w Hw. clear - Hq Hw.
  assert (E : (w * (q1 + (1 # 2)) + w == w * (q1 + 1 + (1 # 2)))%Q) by ring.
  rewrite E. apply Qmult_le_l; [exact Hw|]. lra.
Qed.

(** X5. Two entries of a layout for different keys on the same level, at
    most 45 (where the binary64 arithmetic of the program is exact), are
    at least one slot width, 520 / 2^level, apart; on levels 0 to 3 that
    is at least the diameter 40 of a node circle, so circles of one level
    do not overlap there. *)
Theorem layout_separation (t : Tree) (k1 k2 : Z) (pos1 pos2 : NodePosition) :
  layout t !! k1 = Some pos1 ->
  layout t !! k2 = Some pos2 ->
  k1 <> k2 ->
  level pos1 = level pos2 ->
  level pos1 <= 45 ->
  ((x pos1 + 520 / Qpower 2 (level pos1) <= x pos2)%Q \/
   (x pos2 + 520 / Qpower 2 (level pos1) <= x pos1)%Q) /\
  (level pos1 <= 3 ->
   (x pos1 + 40 <= x pos2)%Q \/ (x pos2 + 40 <= x pos1)%Q).
Proof.
  intros H1 H2 Hne Hlvl _.
  apply layout_entry_reached in H1 as (l1 & s1 & Hin1 & ->).
  apply layout_entry_reached in H2 as (l2 & s2 & Hin2 & ->).
  cbn [level positionAt] in Hlvl. subst l2. cbn [level positionAt].
  assert (Hs : s1 <> s2).
  { intros ->. apply Hne. eapply reached_slot_key; eassumption. }
  assert (Hsep : (x (positionAt l1 s1) + containerWidth / Qpower 2 l1
                    <= x (positionAt l1 s2))%Q \/
                 (x (positionAt l1 s2) + containerWidth / Qpower 2 l1
                    <= x (positionAt l1 s1))%Q).
  { destruct (Z.lt_total s1 s2) as [Hlt | [Heq | Hgt]]; [|contradiction|].
    - left. now apply positionAt_step.
    - right. now apply positionAt_step. }
  split; [exact Hsep|].
  intros Hle. apply reached_level_bound in Hin1 as [Hge _].
  assert (Hwide : (40 <= containerWidth / Qpower 2 l1)%Q).
  { assert (Hcase : l1 = 0 \/ l1 = 1 \/ l1 = 2 \/ l1 = 3) by lia.
    destruct Hcase as [-> | [-> | [-> | ->]]]; vm_compute; discriminate. }
  generalize dependent (containerWidth / Qpower 2 l1)%Q.
  generalize (x (positionAt l1 s1)) (x (positionAt l1 s2)).
  intros x1' x2' w Hsep Hwide. clear - Hsep Hwide.
  destruct Hsep; [left|right]; lra.
Qed.

Lemma layout_separation_witness :
  let t := insertAll [20; 10; 30] in
  layout t !! 10 = Some (positionAt 1 0) /\
  layout t !! 30 = Some (positionAt 1 1) /\
  10 <> 30 /\
  level (positionAt 1 0) = level (positionAt 1 1) /\
  level (positionAt 1 0) <= 45 /\
  level (positionAt 1 0) <= 3 /\
  ((x (positionAt 1 0) + 40 <= x (positionAt 1 1))%Q \/
   (x (positionAt 1 1) + 40 <= x (positionAt 1 0))%Q).
Proof.
  cbv zeta.
  assert (H1 : layout (insertAll [20; 10; 30]) !! 10 = Some (positionAt 1 0))
    by (vm_compute; reflexivity).
  assert (H2 : layout (insertAll [20; 10; 30]) !! 30 = Some (positionAt 1 1))
    by (vm_compute; reflexivity).
  assert (Hne : 10 <> 30) by lia.
  assert (Hle : level (positionAt 1 0) <= 3) by (simpl; lia).
  assert (Hdeep : level (positionAt 1 0) <= 45) by (simpl; lia).
  split; [exact H1|]. split; [exact H2|]. split; [exact Hne|].
  split; [reflexivity|]. split; [exact Hdeep|]. split; [exact Hle|].
  exact (proj2 (layout_separation _ 10 30 _ _ H1 H2 Hne eq_refl Hdeep) Hle).
Defined.

(* --------------------------------------------------------------------- *)
(** *** Layout and insertion *)

(** Inserting a value adds one visit and leaves the others where they
    were. *)
Lemma reached_insert t v : forall lvl p,
  exists es1 es2 lv sv,
    reached (insertIntoBST t v) lvl p = es1 ++ (v, (lv, sv)) :: es2 /\
    reached t lvl p = es1 ++ es2.
Proof.
  induction t as [|k l IHl r IHr]; intros lvl p.
  - exists [], [], lvl, p. split; reflexivity.
  - cbn [insertIntoBST]. destruct (v <? k); cbn [reached].
    + destruct (IHl (lvl + 1) (p * 2)) as (es1 & es2 & lv & sv & -> & ->).
      exists ((k, (lvl, p)) :: es1), (es2 ++ reached r (lvl + 1) (p * 2 + 1)), lv, sv.
      split; cbn [app]; rewrite <- ?app_assoc; reflexivity.
    + destruct (IHr (lvl + 1) (p * 2 + 1)) as (es1 & es2 & lv & sv & -> & ->).
      exists ((k, (lvl, p)) :: reached l (lvl + 1) (p * 2) ++ es1), es2, lv, sv.
      split; cbn [app]; rewrite <- ?app_assoc; reflexivity.
Qed.

Lemma fold_setAt_lookup_congr es (m m' : gmap Z NodePosition) k :
  m !! k = m' !! k -> fold_left setAt es m !! k = fold_left setAt es m' !! k.
Proof.
  revert m m'. induction es as [|[k' ls] es IH]; intros m m' H; simpl; [exact H|].
  apply IH. unfold setAt. cbn [fst snd].
  destruct (decide (k' = k)) as [->|Hne].
  - now rewrite !lookup_insert_eq.
  - now rewrite !lookup_insert_ne.
Qed.

Lemma layout_insert_stable_lookup t v k :
  k <> v -> layout (insertIntoBST t v) !! k = layout t !! k.
Proof.
  intros Hne. unfold layout. rewrite !calculatePositions_fold.
  destruct (reached_insert t v 0 0) as (es1 & es2 & lv & sv & -> & ->).
  rewrite !fold_left_app. cbn [fold_left].
  apply fold_setAt_lookup_congr. unfold setAt at 1. cbn [fst snd].
  now apply lookup_insert_ne.
Qed.

Lemma layout_insert_covers t v : is_Some (layout (insertIntoBST t v) !! v).
Proof.
  unfold layout. rewrite !calculatePositions_fold.
  destruct (reached_insert t v 0 0) as (es1 & es2 & lv & sv & -> & _).
  apply elem_of_dom. rewrite fold_setAt_dom, fmap_app. cbn [fmap list_fmap fst].
  rewrite list_to_set_app_L, list_to_set_cons.
  rewrite !elem_of_union, elem_of_singleton. auto.
Qed.

(** X6. Inserting a value never moves another node: every key other
    than the inserted one has the same entry in the layout of the new
    tree as in the layout of the old one, and the inserted value has an
    entry. *)
Theorem layout_insert_stable (t : Tree) (v : Z) :
  (forall k, k <> v -> layout (insertIntoBST t v) !! k = layout t !! k) /\
  is_Some (layout (insertIntoBST t v) !! v).
Proof.
  split.
  - intros k Hne. now apply layout_insert_stable_lookup.
  - apply layout_insert_covers.
Qed.

Lemma preorder_length t : length (preorder t) = nodeCount t.
Proof.
  induction t as [|k l IHl r IHr]; simpl; [reflexivity|].
  rewrite length_app, IHl, IHr. reflexivity.
Qed.

Lemma layout_dom_preorder t : dom (layout t) = list_to_set (preorder t).
Proof.
  unfold layout. rewrite calculatePositions_fold, fold_setAt_dom, reached_keys.
  rewrite dom_empty_L. apply leibniz_equiv. apply (left_id ∅ (∪)).
Qed.

(** X7. For a tree with pairwise distinct keys the layout has exactly
    one entry per node. *)
Theorem layout_size (t : Tree) :
  NoDup (preorder t) -> size (layout t) = nodeCount t.
Proof.
  intros Hnd.
  rewrite <- (size_dom (layout t)), layout_dom_preorder.
  rewrite size_list_to_set by exact Hnd. apply preorder_length.
Qed.

Lemma layout_size_witness :
  NoDup (preorder (insertAll [20; 10; 30])) /\
  size (layout (insertAll [20; 10; 30])) = nodeCount (insertAll [20; 10; 30]).
Proof.
  assert (Hnd : NoDup (preorder (insertAll [20; 10; 30]))).
  { apply (bool_decide_unpack _). vm_compute. exact I. }
  split; [exact Hnd|]. exact (layout_size _ Hnd).
Defined.

(* --------------------------------------------------------------------- *)
(** *** Lines over the computed layout *)

Lemma edges_length t : length (edges t) = (nodeCount t - 1)%nat.
Proof.
  induction t as [|k l IHl r IHr]; [reflexivity|].
  cbn [edges nodeCount]. rewrite !length_app, IHl, IHr.
  destruct l, r; cbn [childEdge length nodeCount]; lia.
Qed.

Lemma layout_covers t k : k ∈ preorder t -> is_Some (layout t !! k).
Proof.
  intros Hk. apply elem_of_dom. rewrite layout_dom_preorder.
  now apply elem_of_list_to_set.
Qed.

(** X8. Drawn over its own layout, a tree of n nodes gives n - 1 lines,
    whatever the offset and whether or not keys repeat. *)
Theorem renderLines_layout_count (t : Tree) (xOffset : Q) :
  length (renderLines t (layout t) xOffset) = (nodeCount t - 1)%nat.
Proof.
  rewrite <- edges_length.
  eapply Forall2_length, renderLines_covered.
  intros k Hk. now apply layout_covers.
Qed.

(** When every visit of the walk has its record in the mapping, each
    line drops from one row to the next and leans to the side of the
    child. *)
Lemma renderLines_direction t (m : gmap Z NodePosition) off : forall lvl p,
  (forall k l' s, (k, (l', s)) ∈ reached t lvl p -> m !! k = Some (positionAt l' s)) ->
  Forall (fun line =>
            (y2 line == y1 line + 40)%Q /\
            (key line).2 = LeftSide /\ (x2 line < x1 line)%Q \/
            (y2 line == y1 line + 40)%Q /\
            (key line).2 = RightSide /\ (x1 line < x2 line)%Q)
         (renderLines t m off).
Proof.
  induction t as [|id l IHl r IHr]; intros lvl p Hm; [constructor|].
  rewrite renderLines_Node. unfold childLines.
  rewrite (Hm id lvl p) by (cbn [reached]; left).
  assert (Hrow : forall c, (y (positionAt (lvl + 1) c) - nodeRadius
                            == y (positionAt lvl p) + nodeRadius + 40)%Q).
  { intros c. unfold positionAt, nodeRadius, verticalSpacing. cbn [y].
    rewrite inject_Z_plus. change (inject_Z 1) with 1%Q. ring. }
  assert (Hml : forall k l' s, (k, (l', s)) ∈ reached l (lvl + 1) (p * 2) ->
                               m !! k = Some (positionAt l' s)).
  { intros k l' s H. apply Hm. cbn [reached]. rewrite elem_of_cons, elem_of_app. auto. }
  assert (Hmr : forall k l' s, (k, (l', s)) ∈ reached r (lvl + 1) (p * 2 + 1) ->
                               m !! k = Some (positionAt l' s)).
  { intros k l' s H. apply Hm. cbn [reached]. rewrite elem_of_cons, elem_of_app. auto. }
  apply Forall_app. split.
  - destruct l as [|lid ll lr]; [constructor|].
    assert (Hroot : (lid, (lvl + 1, p * 2)) ∈ reached (Node lid ll lr) (lvl + 1) (p * 2))
      by (cbn [reached]; left).
    rewrite (Hml _ _ _ Hroot).
    constructor; [|exact (IHl _ _ Hml)].
    left. cbn [lineBetween key x1 x2 y1 y2 snd]. split_and!; [apply Hrow|reflexivity|].
    apply Qplus_lt_l.
    exact (proj1 (reached_sides (Node lid ll lr) r lvl p lid _ _) Hroot).
  - destruct r as [|rid rl rr]; [constructor|].
    assert (Hroot : (rid, (lvl + 1, p * 2 + 1))
                      ∈ reached (Node rid rl rr) (lvl + 1) (p * 2 + 1))
      by (cbn [reached]; left).
    rewrite (Hmr _ _ _ Hroot).
    constructor; [|exact (IHr _ _ Hmr)].
    right. cbn [lineBetween key x1 x2 y1 y2 snd]. split_and!; [apply Hrow|reflexivity|].
    apply Qplus_lt_l.
    exact (proj2 (reached_sides l (Node rid rl rr) lvl p rid _ _) Hroot).
Qed.

(** X9. Over the layout of a tree with pairwise distinct keys and at
    most 46 levels (so that the binary64 arithmetic of the program is
    exact), with the offset 0 the controller always passes, every line
    ends 40 below where it starts (from the bottom of the parent's circle
    to the top of the child's, one row of 80 lower); a line to a left
    child runs to the left and a line to a right child to the right. *)
Theorem renderLines_layout_direction (t : Tree) :
  NoDup (preorder t) ->
  (height t <= 46)%nat ->
  Forall (fun line =>
            (y2 line == y1 line + 40)%Q /\
            (key line).2 = LeftSide /\ (x2 line < x1 line)%Q \/
            (y2 line == y1 line + 40)%Q /\
            (key line).2 = RightSide /\ (x1 line < x2 line)%Q)
         (renderLines t (layout t) 0).
Proof.
  intros Hnd _. apply (renderLines_direction t (layout t) 0%Q 0 0).
  intros k l' s Hin. unfold layout. rewrite calculatePositions_fold.
  apply fold_setAt_lookup; [|exact Hin]. now rewrite reached_keys.
Qed.

Lemma renderLines_layout_direction_witness :
  NoDup (preorder (insertAll [20; 10; 30])) /\
  Nat.le (height (insertAll [20; 10; 30])) 46 /\
  Forall (fun line =>
            (y2 line == y1 line + 40)%Q /\
            (key line).2 = LeftSide /\ (x2 line < x1 line)%Q \/
            (y2 line == y1 line + 40)%Q /\
            (key line).2 = RightSide /\ (x1 line < x2 line)%Q)
         (renderLines (insertAll [20; 10; 30]) (layout (insertAll [20; 10; 30])) 0).
Proof.
  assert (Hnd : NoDup (preorder (insertAll [20; 10; 30]))).
  { apply (bool_decide_unpack _). vm_compute. exact I. }
  assert (Hh : Nat.le (height (insertAll [20; 10; 30])) 46) by (vm_compute; lia).
  split; [exact Hnd|]. split; [exact Hh|].
  exact (renderLines_layout_direction _ Hnd Hh).
Defined.

(* --------------------------------------------------------------------- *)
(** *** The offset *)

Lemma offsetOver_nonempty (m : gmap Z NodePosition) (vals : list NodePosition) w :
  m <> ∅ -> Permutation vals (values m) ->
  exists lo hi,
    is_minX m lo /\ is_maxX m hi /\
    offsetOver (size m) vals w = Fin (w / 2 - (lo + (hi - lo) / 2))%Q.
Proof.
  intros Hne Hperm. unfold offsetOver.
  assert (Hsize : size m <> 0%nat) by (intros H; now apply map_size_empty_inv in H).
  destruct (Nat.eqb_spec (size m) 0) as [|_]; [contradiction|].
  assert (Hmem : forall p, p ∈ vals <-> exists k, m !! k = Some p).
  { intros p. rewrite Hperm. apply elem_of_values. }
  destruct vals as [|pos ps].
  { exfalso. apply Hne, map_to_list_empty_iff.
    apply Permutation_nil_l in Hperm.
    unfold values in Hperm. symmetry in Hperm. now apply fmap_nil_inv in Hperm. }
  destruct (minmax_fold_start pos ps) as (lo & hi & -> & Hlo & Hhi & Hall).
  exists lo, hi. split_and!; [split|split|reflexivity].
  - destruct Hlo as (p & Hin & Hx). apply Hmem in Hin as [k Hk]. eauto.
  - intros k p Hk. apply (Hall p). apply Hmem. eauto.
  - destruct Hhi as (p & Hin & Hx). apply Hmem in Hin as [k Hk]. eauto.
  - intros k p Hk. apply (Hall p). apply Hmem. eauto.
Qed.

Lemma is_minX_unique (m : gmap Z NodePosition) lo lo' :
  is_minX m lo -> is_minX m lo' -> (lo == lo')%Q.
Proof.
  intros [(k & pos & Hk & Hx) Hle] [(k' & pos' & Hk' & Hx') Hle'].
  apply Qle_antisym.
  - rewrite <- Hx'. eapply Hle; eassumption.
  - rewrite <- Hx. eapply Hle'; eassumption.
Qed.

Lemma is_maxX_unique (m : gmap Z NodePosition) hi hi' :
  is_maxX m hi -> is_maxX m hi' -> (hi == hi')%Q.
Proof.
  intros [(k & pos & Hk & Hx) Hle] [(k' & pos' & Hk' & Hx') Hle'].
  apply Qle_antisym.
  - rewrite <- Hx. eapply Hle'; eassumption.
  - rewrite <- Hx'. eapply Hle; eassumption.
Qed.

(** In exact arithmetic the offset is a finite number that places the
    least and the greatest abscissa symmetrically about the middle. *)
Lemma offset_centers_exact (positions : gmap Z NodePosition) (canvasWidth : Q) :
  exists offset,
    getHorizontalOffset positions canvasWidth = Fin offset /\
    (forall minX maxX,
       is_minX positions minX -> is_maxX positions maxX ->
       ((minX + offset) + (maxX + offset) == canvasWidth)%Q).
Proof.
  destruct (decide (positions = ∅)) as [-> | Hne].
  - exists 0%Q. split; [reflexivity|].
    intros lo hi [(k & pos & Hk & _) _]. now rewrite lookup_empty in Hk.
  - destruct (offsetOver_nonempty positions (values positions) canvasWidth Hne)
      as (lo & hi & Hlo & Hhi & Heq); [reflexivity|].
    eexists. split; [exact Heq|].
    intros lo' hi' Hlo' Hhi'.
    rewrite (is_minX_unique _ _ _ Hlo' Hlo), (is_maxX_unique _ _ _ Hhi' Hhi).
    field.
Qed.

(** X10. For the layout of a tree of at most 45 levels and the canvas
    width 520 (where every operation of [getHorizontalOffset] is exact in
    binary64), the offset is a finite number and, shifted by it, the least
    and the greatest x of the layout lie symmetrically about the middle of
    the canvas: (minX + offset) + (maxX + offset) = 520. *)
Theorem getHorizontalOffset_centers (t : Tree) :
  (height t <= 45)%nat ->
  exists offset,
    getHorizontalOffset (layout t) 520 = Fin offset /\
    (forall minX maxX,
       is_minX (layout t) minX -> is_maxX (layout t) maxX ->
       ((minX + offset) + (maxX + offset) == 520)%Q).
Proof.
  intros _. apply offset_centers_exact.
Qed.

Lemma getHorizontalOffset_centers_witness :
  let m := layout (insertAll [10; 20]) in
  Nat.le (height (insertAll [10; 20])) 45 /\
  is_minX m (x (positionAt 0 0)) /\ is_maxX m (x (positionAt 1 1)) /\
  exists offset,
    getHorizontalOffset m 520 = Fin offset /\
    ((x (positionAt 0 0) + offset) + (x (positionAt 1 1) + offset) == 520)%Q.
Proof.
  cbv zeta.
  assert (Hh : Nat.le (height (insertAll [10; 20])) 45) by (vm_compute; lia).
  assert (Hall : forall k pos, layout (insertAll [10; 20]) !! k = Some pos ->
                   pos = positionAt 0 0 \/ pos = positionAt 1 1).
  { intros k pos H. apply layout_entry_reached in H as (lvl & p & Hin & ->).
    change (reached (insertAll [10; 20]) 0 0) with [(10, (0, 0)); (20, (1, 1))] in Hin.
    rewrite !elem_of_cons, elem_of_nil in Hin.
    destruct Hin as [Heq | [Heq | []]]; injection Heq as _ -> ->; auto. }
  assert (Hlo : is_minX (layout (insertAll [10; 20])) (x (positionAt 0 0))).
  { split.
    - exists 10, (positionAt 0 0). split; reflexivity.
    - intros k pos H. destruct (Hall k pos H) as [-> | ->]; vm_compute; discriminate. }
  assert (Hhi : is_maxX (layout (insertAll [10; 20])) (x (positionAt 1 1))).
  { split.
    - exists 20, (positionAt 1 1). split; reflexivity.
    - intros k pos H. destruct (Hall k pos H) as [-> | ->]; vm_compute; discriminate. }
  split; [exact Hh|]. split; [exact Hlo|]. split; [exact Hhi|].
  destruct (getHorizontalOffset_centers (insertAll [10; 20]) Hh)
    as (offset & Heq & Hsym).
  exists offset. split; [exact Heq|]. exact (Hsym _ _ Hlo Hhi).
Defined.

(* --------------------------------------------------------------------- *)
(** *** Allocation *)

Lemma pathLength_le_height t v : (pathLength t v <= height t)%nat.
Proof.
  induction t as [|k l IHl r IHr]; simpl; [lia|].
  destruct (v <? k); lia.
Qed.

(** X11. On the object store an insertion with enough fuel returns a
    result and only appends: the new store is the old one followed by one
    new object per node on the search path plus the new leaf, at most
    height + 1 objects. *)
Theorem insertIntoBST_allocates (t : Tree) :
  forall (fuel : nat) (h : list Store.TreeNode) (root : option nat) (v : Z),
    (height t < fuel)%nat ->
    Store.repr h root t ->
    exists q h' new,
      Store.insertIntoBST fuel h root v = Some (q, h') /\
      h' = h ++ new /\
      length new = S (pathLength t v) /\
      (length new <= S (height t))%nat.
Proof.
  induction t as [|k tl IHl tr IHr]; intros fuel h root v Hfuel Hrepr;
    (destruct fuel as [|fuel]; [simpl in Hfuel; lia|]).
  - simpl in Hrepr. subst root. cbn [Store.insertIntoBST].
    eexists _, _, [Store.mkNode v None None].
    split_and!; [reflexivity|reflexivity|reflexivity|simpl; lia].
  - destruct Hrepr as (p & lp & rp & -> & Hlook & Hl & Hr).
    cbn [Store.insertIntoBST]. rewrite Hlook.
    cbn [Store.id Store.left Store.right].
    pose proof (pathLength_le_height (Node k tl tr) v) as Hpl.
    cbn [pathLength height] in *.
    destruct (v <? k).
    + destruct (IHl fuel h lp v) as (q1 & h1 & new & -> & -> & Hlen & _); [lia|exact Hl|].
      eexists _, _, (new ++ [Store.mkNode k (Some q1) rp]).
      split_and!; [reflexivity|cbn; now rewrite app_assoc| |];
        rewrite length_app, Hlen; cbn [length]; lia.
    + destruct (IHr fuel h rp v) as (q1 & h1 & new & -> & -> & Hlen & _); [lia|exact Hr|].
      eexists _, _, (new ++ [Store.mkNode k lp (Some q1)]).
      split_and!; [reflexivity|cbn; now rewrite app_assoc| |];
        rewrite length_app, Hlen; cbn [length]; lia.
Qed.

Lemma insertIntoBST_allocates_witness :
  Nat.lt (height (insertAll [10; 20])) 3 /\
  Store.repr Store.example_store (Some 1%nat) (insertAll [10; 20]) /\
  exists q h' new,
    Store.insertIntoBST 3 Store.example_store (Some 1%nat) 15 = Some (q, h') /\
    h' = Store.example_store ++ new /\
    length new = S (pathLength (insertAll [10; 20]) 15) /\
    Nat.le (length new) (S (height (insertAll [10; 20]))).
Proof.
  assert (Hfuel : Nat.lt (height (insertAll [10; 20])) 3) by (vm_compute; lia).
  assert (Hrepr : Store.repr Store.example_store (Some 1%nat) (insertAll [10; 20])).
  { vm_compute. exists 1%nat, None, (Some 0%nat). split_and!; try reflexivity.
    exists 0%nat, None, None. split_and!; reflexivity. }
  split; [exact Hfuel|]. split; [exact Hrepr|].
  exact (insertIntoBST_allocates (insertAll [10; 20]) 3 Store.example_store
           (Some 1%nat) 15 Hfuel Hrepr).
Defined.

(* --------------------------------------------------------------------- *)
(** *** The session controller *)

Lemma offsetEffect_fields s :
  App.tree (App.offsetEffect s) = App.tree s /\
  App.usedValues (App.offsetEffect s) = App.usedValues s /\
  App.isDarkMode (App.offsetEffect s) = App.isDarkMode s.
Proof.
  unfold App.offsetEffect. destruct s as [t us d o]. cbn.
  destruct t; [auto|]. destruct (length us =? 1)%nat; cbn; auto.
Qed.

Lemma handleInsert_fields v s :
  App.includes (App.usedValues s) v = false ->
  App.tree (App.handleInsert v s) = insertIntoBST (App.tree s) v /\
  App.usedValues (App.handleInsert v s) = App.usedValues s ++ [v] /\
  App.isDarkMode (App.handleInsert v s) = App.isDarkMode s.
Proof.
  intros Hinc. unfold App.handleInsert. rewrite Hinc.
  destruct (offsetEffect_fields
              (App.mkState (insertIntoBST (App.tree s) v) (App.usedValues s ++ [v])
                           (App.isDarkMode s) (App.treeOffset s))) as (-> & -> & ->).
  auto.
Qed.

Lemma resetTree_eq s :
  App.resetTree s = App.mkState Null [] (App.isDarkMode s) (Fin 0).
Proof.
  unfold App.resetTree. destruct (App.tree s); [destruct (App.usedValues s)|];
    reflexivity.
Qed.

Lemma includes_spec vs v : App.includes vs v = true <-> v ∈ vs.
Proof. unfold App.includes. apply bool_decide_eq_true. Qed.

Lemma includes_false vs v : App.includes vs v = false <-> v ∉ vs.
Proof. unfold App.includes. apply bool_decide_eq_false. Qed.

Lemma insertAll_snoc vs v : insertAll (vs ++ [v]) = insertIntoBST (insertAll vs) v.
Proof. unfold insertAll. now rewrite fold_left_app. Qed.

Lemma preorder_inorder t v : v ∈ preorder t <-> v ∈ inorder t.
Proof.
  induction t as [|k l IHl r IHr]; simpl; [reflexivity|].
  rewrite elem_of_app, !elem_of_cons, elem_of_app, IHl, IHr. tauto.
Qed.

(** The invariant of the controller: the tree is the history inserted in
    order, the history has no repetition and only holds inserted values. *)
Lemma run_invariant es :
  App.tree (App.run es) = insertAll (App.usedValues (App.run es)) /\
  NoDup (App.usedValues (App.run es)) /\
  (forall v, v ∈ App.usedValues (App.run es) -> App.Insert v ∈ es).
Proof.
  unfold App.run. induction es as [|e es IH] using rev_ind.
  - cbn. split_and!; [reflexivity|constructor|].
    intros v H. now apply elem_of_nil in H.
  - rewrite fold_left_app. cbn [fold_left].
    set (s := fold_left App.step es (App.offsetEffect App.initialState)) in *.
    destruct IH as (Ht & Hnd & Hin).
    assert (Hin' : forall v, v ∈ App.usedValues s -> App.Insert v ∈ es ++ [e]).
    { intros v Hv. apply elem_of_app. left. now apply Hin. }
    destruct e as [v| |]; cbn [App.step].
    + destruct (App.includes (App.usedValues s) v) eqn:Hinc.
      * unfold App.handleInsert. rewrite Hinc. auto.
      * destruct (handleInsert_fields v s Hinc) as (-> & -> & _).
        apply includes_false in Hinc.
        split_and!.
        -- now rewrite insertAll_snoc, Ht.
        -- apply NoDup_app. split_and!; [exact Hnd| |apply NoDup_singleton].
           intros u Hu Hu'. apply list_elem_of_singleton in Hu'. congruence.
        -- intros u Hu. apply elem_of_app in Hu as [Hu | Hu]; [now apply Hin'|].
           apply list_elem_of_singleton in Hu as ->.
           apply elem_of_app. right. left.
    + rewrite resetTree_eq. cbn. split_and!; [reflexivity|constructor|].
      intros v H. now apply elem_of_nil in H.
    + cbn. auto.
Qed.

(** X12. In every state the controller can reach, the tree is exactly
    the insertion history inserted in order into the empty tree, the
    history holds no value twice and only values some event inserted, and
    a palette button is disabled exactly when its value is a key of the
    tree. *)
Theorem run_history (es : list App.Event) :
  App.tree (App.run es) = insertAll (App.usedValues (App.run es)) /\
  NoDup (App.usedValues (App.run es)) /\
  (forall v, v ∈ App.usedValues (App.run es) -> App.Insert v ∈ es) /\
  (forall v, App.includes (App.usedValues (App.run es)) v = true
             <-> v ∈ preorder (App.tree (App.run es))).
Proof.
  destruct (run_invariant es) as (Ht & Hnd & Hin).
  split_and!; [exact Ht|exact Hnd|exact Hin|].
  intros v. rewrite includes_spec, Ht at 1.
  rewrite preorder_inorder.
  assert (Hp : Permutation (inorder (insertAll (App.usedValues (App.run es))))
                           (App.usedValues (App.run es))).
  { unfold insertAll. rewrite fold_insert_perm. simpl. now rewrite app_nil_r. }
  now rewrite Hp.
Qed.

Lemma insertAll_preorder_NoDup vs : NoDup vs -> NoDup (preorder (insertAll vs)).
Proof.
  intros Hnd.
  assert (Hp : Permutation (inorder (insertAll vs)) vs).
  { unfold insertAll. rewrite fold_insert_perm. simpl. now rewrite app_nil_r. }
  assert (Hpre : forall t, Permutation (preorder t) (inorder t)).
  { induction t as [|k l IHl r IHr]; simpl; [reflexivity|].
    rewrite IHl, IHr. apply Permutation_middle. }
  now rewrite Hpre, Hp.
Qed.

(** X13. In every state the controller can reach when each event is
    handled in a render of its own, the tree satisfies the search-tree
    invariant with pairwise distinct keys, its in-order traversal is
    strictly increasing, the layout has one entry per inserted value and
    the tree is drawn with one line fewer than it has values. *)
Theorem run_tree_wellformed (es : list App.Event) (xOffset : Q) :
  BST (App.tree (App.run es)) /\
  NoDup (preorder (App.tree (App.run es))) /\
  StronglySorted Z.lt (inorder (App.tree (App.run es))) /\
  size (App.positions (App.run es)) = length (App.usedValues (App.run es)) /\
  length (renderLines (App.tree (App.run es)) (App.positions (App.run es)) xOffset)
    = (length (App.usedValues (App.run es)) - 1)%nat.
Proof.
  destruct (run_invariant es) as (Ht & Hnd & _).
  unfold App.positions. rewrite Ht.
  set (vs := App.usedValues (App.run es)) in *.
  assert (Hb : BST (insertAll vs)) by (apply fold_insert_BST; exact I).
  assert (Hpre : NoDup (preorder (insertAll vs))) by now apply insertAll_preorder_NoDup.
  assert (Hcount : nodeCount (insertAll vs) = length vs).
  { pose proof (nodeCount_fold vs Null) as H. exact H. }
  split_and!.
  - exact Hb.
  - exact Hpre.
  - apply sorted_le_NoDup_lt; [now apply BST_inorder_le|].
    unfold insertAll. rewrite fold_insert_perm. simpl. now rewrite app_nil_r.
  - rewrite <- (size_dom (layout (insertAll vs))), layout_dom_preorder.
    rewrite size_list_to_set by exact Hpre. now rewrite preorder_length.
  - rewrite <- Hcount, <- edges_length.
    eapply Forall2_length, renderLines_covered.
    intros k Hk. now apply layout_covers.
Qed.

Lemma single_node_offset v :
  exists q, getHorizontalOffset (layout (Node v Null Null)) App.canvasWidth = Fin q /\
            (q == 0)%Q.
Proof.
  unfold layout. cbn [calculatePositions].
  unfold getHorizontalOffset, values.
  rewrite insert_empty, map_size_singleton, map_to_list_singleton.
  eexists. split; [reflexivity|]. reflexivity.
Qed.

Lemma offsetEffect_zero s :
  App.tree s = insertAll (App.usedValues s) ->
  (exists q, App.treeOffset s = Fin q /\ (q == 0)%Q) ->
  exists q, App.treeOffset (App.offsetEffect s) = Fin q /\ (q == 0)%Q.
Proof.
  destruct s as [t us d o]. cbn [App.tree App.usedValues App.treeOffset].
  intros Ht Ho. unfold App.offsetEffect. cbn [App.tree App.usedValues].
  destruct t as [|k l r].
  - cbn. exists 0%Q. split; reflexivity.
  - destruct us as [|u [|u' us]]; cbn [length Nat.eqb]; cbn; try exact Ho.
    unfold insertAll in Ht. cbn in Ht. injection Ht as -> -> ->.
    apply single_node_offset.
Qed.

(** X14. The stored offset is zero in every state the controller can
    reach: it is computed only when the tree has a single node, whose x
    is the middle of the canvas, and is otherwise reset to 0 or kept. *)
Theorem run_offset_zero (es : list App.Event) :
  exists q, App.treeOffset (App.run es) = Fin q /\ (q == 0)%Q.
Proof.
  induction es as [|e es IH] using rev_ind.
  - exists 0%Q. split; reflexivity.
  - destruct (run_invariant (es ++ [e])) as (Ht' & _).
    destruct (run_invariant es) as (Ht & _).
    unfold App.run in *. rewrite fold_left_app in *. cbn [fold_left] in *.
    set (s := fold_left App.step es (App.offsetEffect App.initialState)) in *.
    destruct e as [v| |]; cbn [App.step] in *.
    + unfold App.handleInsert in *.
      destruct (App.includes (App.usedValues s) v); [exact IH|].
      apply offsetEffect_zero; [|exact IH].
      cbn [App.tree App.usedValues]. now rewrite insertAll_snoc, Ht.
    + rewrite resetTree_eq. exists 0%Q. split; reflexivity.
    + exact IH.
Qed.

(** X15. When the events come from the palette buttons and each is
    handled in a render of its own, the history and the tree never hold
    more than the 7 palette values, the tree is at most 7 high, and every
    layout entry has a level of at most 6 and a y of at most 500.  The
    bound is reached: inserting the palette in ascending order puts key 70
    on level 6 at y = 500, below the canvas height of 480. *)
Theorem run_palette_bounds :
  (forall es : list App.Event,
     Forall App.fromPalette es ->
     (length (App.usedValues (App.run es)) <= 7)%nat /\
     (height (App.tree (App.run es)) <= 7)%nat /\
     (forall k pos, App.positions (App.run es) !! k = Some pos ->
                    level pos <= 6 /\ (y pos <= 500)%Q)) /\
  (exists pos,
     App.positions (App.run (App.Insert <$> App.predefinedValues)) !! 70 = Some pos /\
     level pos = 6 /\ (y pos == 500)%Q /\ (App.canvasHeight < y pos)%Q).
Proof.
  split.
  - intros es Hpal.
    destruct (run_invariant es) as (Ht & Hnd & Hin).
    assert (Hlen : (length (App.usedValues (App.run es)) <= 7)%nat).
    { change 7%nat with (length App.predefinedValues).
      apply submseteq_length, NoDup_submseteq; [exact Hnd|].
      intros v Hv. apply Hin in Hv.
      rewrite Forall_forall in Hpal. exact (Hpal _ Hv). }
    assert (Hh : (height (App.tree (App.run es)) <= 7)%nat).
    { rewrite Ht. etransitivity; [apply height_le_nodeCount|].
      pose proof (nodeCount_fold (App.usedValues (App.run es)) Null) as Hn.
      unfold insertAll. rewrite Hn. exact Hlen. }
    split_and!; [exact Hlen|exact Hh|].
    intros k pos Hpos. unfold App.positions in Hpos.
    apply layout_entry_reached in Hpos as (lvl & p & Hreach & ->).
    apply reached_level_bound in Hreach. cbn [level y positionAt].
    assert (Hl : lvl <= 6) by lia. split; [exact Hl|].
    unfold verticalSpacing.
    assert (Hq : (inject_Z lvl <= 6)%Q).
    { change 6%Q with (inject_Z 6). now rewrite <- Zle_Qle. }
    generalize dependent (inject_Z lvl). intros q Hq. clear - Hq. lra.
  - exists (positionAt 6 63). split_and!; [reflexivity|reflexivity|reflexivity|].
    vm_compute. reflexivity.
Qed.

Lemma run_palette_bounds_witness :
  let es := [App.Insert 30; App.ToggleTheme; App.Insert 10; App.Insert 30; App.Insert 70] in
  Forall App.fromPalette es /\
  (length (App.usedValues (App.run es)) <= 7)%nat /\
  (height (App.tree (App.run es)) <= 7)%nat /\
  (forall k pos, App.positions (App.run es) !! k = Some pos ->
                 level pos <= 6 /\ (y pos <= 500)%Q).
Proof.
  cbv zeta.
  assert (Hpal : Forall App.fromPalette
            [App.Insert 30; App.ToggleTheme; App.Insert 10; App.Insert 30; App.Insert 70]).
  { repeat constructor; apply (bool_decide_unpack _); vm_compute; exact I. }
  split; [exact Hpal|]. exact (proj1 run_palette_bounds _ Hpal).
Defined.

(** X16. Asking to insert a value a second time changes nothing: after
    [handleInsert(v)] a further [handleInsert(v)] leaves the state as it
    is, so no key is ever inserted twice. *)
Theorem handleInsert_idempotent (v : Z) (s : App.AppState) :
  App.handleInsert v (App.handleInsert v s) = App.handleInsert v s.
Proof.
  destruct (App.includes (App.usedValues s) v) eqn:Hinc.
  - unfold App.handleInsert. now rewrite Hinc, Hinc.
  - destruct (handleInsert_fields v s Hinc) as (_ & Hus & _).
    unfold App.handleInsert at 1.
    assert (Hnow : App.includes (App.usedValues (App.handleInsert v s)) v = true).
    { apply includes_spec. rewrite Hus. apply elem_of_app. right. left. }
    now rewrite Hnow.
Qed.

Lemma offsetEffect_sameTree s1 s2 :
  App.sameTree s1 s2 -> App.sameTree (App.offsetEffect s1) (App.offsetEffect s2).
Proof.
  destruct s1 as [t1 u1 d1 o1], s2 as [t2 u2 d2 o2].
  unfold App.sameTree. cbn. intros (-> & -> & ->).
  unfold App.offsetEffect. cbn.
  destruct t2; [cbn; auto|]. destruct (length u2 =? 1)%nat; cbn; auto.
Qed.

Lemma step_sameTree s1 s2 e :
  App.sameTree s1 s2 -> App.sameTree (App.step s1 e) (App.step s2 e).
Proof.
  intros Hs. destruct e as [v| |]; cbn [App.step].
  - unfold App.handleInsert. destruct Hs as (Ht & Hu & Ho). rewrite Ht, Hu, Ho.
    destruct (App.includes (App.usedValues s2) v).
    + unfold App.sameTree. auto.
    + apply offsetEffect_sameTree. unfold App.sameTree. cbn. auto.
  - rewrite !resetTree_eq. unfold App.sameTree. cbn. auto.
  - destruct Hs as (Ht & Hu & Ho). unfold App.sameTree. cbn. auto.
Qed.

Lemma fold_step_sameTree es s1 s2 :
  App.sameTree s1 s2 ->
  App.sameTree (fold_left App.step es s1) (fold_left App.step es s2).
Proof.
  revert s1 s2. induction es as [|e es IH]; intros s1 s2 Hs; [exact Hs|].
  simpl. apply IH. now apply step_sameTree.
Qed.

(** X17. Reset forgets the past: it empties the tree and the history
    and sets the offset to 0, keeping only the theme, and whatever
    happened before it, the events after it lead to the same tree,
    history and offset as from a fresh start. *)
Theorem run_reset (es es' : list App.Event) :
  App.resetTree (App.run es)
    = App.mkState Null [] (App.isDarkMode (App.run es)) (Fin 0) /\
  App.sameTree (App.run (es ++ App.Reset :: es')) (App.run es').
Proof.
  split; [apply resetTree_eq|].
  unfold App.run. rewrite fold_left_app. cbn [fold_left App.step].
  apply fold_step_sameTree. rewrite resetTree_eq.
  unfold App.sameTree. cbn. auto.
Qed.

(** X18. The theme and the tree do not influence each other: removing a
    theme toggle from a sequence of events changes neither the tree, the
    history nor the offset, and the theme is dark exactly when the number
    of toggles so far is odd, whatever was inserted or reset. *)
Theorem run_theme_independent :
  (forall es1 es2,
     App.sameTree (App.run (es1 ++ App.ToggleTheme :: es2)) (App.run (es1 ++ es2))) /\
  (forall es,
     App.isDarkMode (App.run es) = Nat.odd (length (List.filter App.isToggle es))).
Proof.
  split.
  - intros es1 es2. unfold App.run. rewrite !fold_left_app. cbn [fold_left App.step].
    apply fold_step_sameTree. unfold App.sameTree. cbn. auto.
  - intros es. unfold App.run. induction es as [|e es IH] using rev_ind; [reflexivity|].
    rewrite fold_left_app, List.filter_app, length_app. cbn [fold_left].
    set (s := fold_left App.step es (App.offsetEffect App.initialState)) in *.
    destruct e as [v| |]; cbn [App.step List.filter App.isToggle length].
    + rewrite Nat.add_0_r, <- IH. unfold App.handleInsert.
      destruct (App.includes (App.usedValues s) v); [reflexivity|].
      now rewrite (proj2 (proj2 (offsetEffect_fields _))).
    + rewrite Nat.add_0_r, <- IH. now rewrite resetTree_eq.
    + rewrite Nat.add_1_r, Nat.odd_succ, <- Nat.negb_odd, <- IH. reflexivity.
Qed.

Lemma run_history_witness :
  let es := [App.Insert 20; App.Insert 10; App.Insert 20] in
  App.usedValues (App.run es) = [20; 10] /\
  App.tree (App.run es) = insertAll [20; 10] /\
  App.Insert 10 ∈ es /\
  App.includes (App.usedValues (App.run es)) 10 = true /\
  10 ∈ preorder (App.tree (App.run es)).
Proof.
  cbv zeta.
  pose proof (run_history [App.Insert 20; App.Insert 10; App.Insert 20])
    as (Ht & _ & Hin & Hdis).
  assert (Hus : App.usedValues (App.run [App.Insert 20; App.Insert 10; App.Insert 20])
                = [20; 10]) by (vm_compute; reflexivity).
  assert (H10 : 10 ∈ App.usedValues (App.run [App.Insert 20; App.Insert 10; App.Insert 20])).
  { rewrite Hus. right. left. }
  assert (Hinc : App.includes
                   (App.usedValues (App.run [App.Insert 20; App.Insert 10; App.Insert 20]))
                   10 = true) by (vm_compute; reflexivity).
  split; [exact Hus|]. split; [rewrite Ht, Hus; reflexivity|].
  split; [exact (Hin 10 H10)|]. split; [exact Hinc|].
  exact (proj1 (Hdis 10) Hinc).
Defined.

Lemma layout_insert_stable_witness :
  10 <> 25 /\
  layout (insertIntoBST (insertAll [20; 10; 30]) 25) !! 10
    = layout (insertAll [20; 10; 30]) !! 10.
Proof.
  assert (Hne : 10 <> 25) by lia.
  split; [exact Hne|].
  exact (proj1 (layout_insert_stable (insertAll [20; 10; 30]) 25) 10 Hne).
Defined.

(* --------------------------------------------------------------------- *)
(** *** Lines and insertion *)

Lemma renderLines_agree t (m m' : gmap Z NodePosition) off :
  (forall k, k ∈ preorder t -> m' !! k = m !! k) ->
  renderLines t m' off = renderLines t m off.
Proof.
  induction t as [|id l IHl r IHr]; intros Hag; [reflexivity|].
  assert (Hl : forall k, k ∈ preorder l -> m' !! k = m !! k).
  { intros k H. apply Hag. simpl. rewrite elem_of_cons, elem_of_app. auto. }
  assert (Hr : forall k, k ∈ preorder r -> m' !! k = m !! k).
  { intros k H. apply Hag. simpl. rewrite elem_of_cons, elem_of_app. auto. }
  rewrite !renderLines_Node. unfold childLines.
  rewrite (Hag id) by left. rewrite (IHl Hl), (IHr Hr).
  f_equal.
  - destruct l as [|lid ll lr]; [reflexivity|]. now rewrite (Hl lid) by left.
  - destruct r as [|rid rl rr]; [reflexivity|]. now rewrite (Hr rid) by left.
Qed.

Lemma renderLines_insert t v (m m' : gmap Z NodePosition) off :
  t <> Null ->
  (forall k, k ∈ preorder t -> is_Some (m !! k)) ->
  (forall k, k ∈ preorder t -> m' !! k = m !! k) ->
  is_Some (m' !! v) ->
  exists before after line,
    renderLines (insertIntoBST t v) m' off = before ++ line :: after /\
    renderLines t m off = before ++ after.
Proof.
  intros Hnn Hcov Hag [vp Hvp].
  induction t as [|id l IHl r IHr]; [contradiction|]. clear Hnn.
  assert (Hl : forall k, k ∈ preorder l -> m' !! k = m !! k).
  { intros k H. apply Hag. simpl. rewrite elem_of_cons, elem_of_app. auto. }
  assert (Hr : forall k, k ∈ preorder r -> m' !! k = m !! k).
  { intros k H. apply Hag. simpl. rewrite elem_of_cons, elem_of_app. auto. }
  assert (Hcl : forall k, k ∈ preorder l -> is_Some (m !! k)).
  { intros k H. apply Hcov. simpl. rewrite elem_of_cons, elem_of_app. auto. }
  assert (Hcr : forall k, k ∈ preorder r -> is_Some (m !! k)).
  { intros k H. apply Hcov. simpl. rewrite elem_of_cons, elem_of_app. auto. }
  destruct (Hcov id) as [np Hnp]; [left|].
  assert (Hnp' : m' !! id = Some np) by (rewrite (Hag id) by left; exact Hnp).
  cbn [insertIntoBST]. destruct (v <? id).
  - rewrite !renderLines_Node.
    assert (Hright : childLines id RightSide r m' off = childLines id RightSide r m off).
    { unfold childLines. rewrite Hnp', Hnp, (renderLines_agree r m m' off Hr).
      destruct r as [|rid rl rr]; [reflexivity|]. now rewrite (Hr rid) by left. }
    rewrite Hright. set (R := childLines id RightSide r m off).
    destruct l as [|lid ll lr].
    + exists [], R, (lineBetween id LeftSide np vp off).
      unfold childLines. cbn [insertIntoBST]. rewrite Hnp', Hvp. split; reflexivity.
    + destruct (Hcl lid) as [lp Hlp]; [left|].
      destruct (IHl ltac:(discriminate) Hcl Hl) as (bf & af & line & Hnew & Hold).
      exists (lineBetween id LeftSide np lp off :: bf), (af ++ R), line.
      assert (Hroot : exists a b, insertIntoBST (Node lid ll lr) v = Node lid a b).
      { cbn [insertIntoBST]. destruct (v <? lid); eauto. }
      destruct Hroot as (a & b & Hins).
      unfold childLines. rewrite Hnp', Hnp, Hlp.
      rewrite Hins in Hnew |- *. rewrite (Hl lid) by left. rewrite Hlp, Hnew, Hold.
      split; cbn [app]; now rewrite <- app_assoc.
  - rewrite !renderLines_Node.
    assert (Hleft : childLines id LeftSide l m' off = childLines id LeftSide l m off).
    { unfold childLines. rewrite Hnp', Hnp, (renderLines_agree l m m' off Hl).
      destruct l as [|lid ll lr]; [reflexivity|]. now rewrite (Hl lid) by left. }
    rewrite Hleft. set (L := childLines id LeftSide l m off).
    destruct r as [|rid rl rr].
    + exists L, [], (lineBetween id RightSide np vp off).
      unfold childLines. cbn [insertIntoBST]. rewrite Hnp', Hvp. split; reflexivity.
    + destruct (Hcr rid) as [rp Hrp]; [left|].
      destruct (IHr ltac:(discriminate) Hcr Hr) as (bf & af & line & Hnew & Hold).
      exists (L ++ lineBetween id RightSide np rp off :: bf), af, line.
      assert (Hroot : exists a b, insertIntoBST (Node rid rl rr) v = Node rid a b).
      { cbn [insertIntoBST]. destruct (v <? rid); eauto. }
      destruct Hroot as (a & b & Hins).
      unfold childLines. rewrite Hnp', Hnp, Hrp.
      rewrite Hins in Hnew |- *. rewrite (Hr rid) by left. rewrite Hrp, Hnew, Hold.
      split; cbn [app]; now rewrite <- app_assoc.
Qed.

(** X19. Inserting a new key into a non-empty tree adds exactly one line
    to the picture and changes no other: the lines over the new layout
    are the lines over the old layout, in the same order and with the
    same endpoints, with one line inserted. *)
Theorem renderLines_insert_one (t : Tree) (v : Z) (xOffset : Q) :
  t <> Null ->
  v ∉ preorder t ->
  exists before after line,
    renderLines (insertIntoBST t v) (layout (insertIntoBST t v)) xOffset
      = before ++ line :: after /\
    renderLines t (layout t) xOffset = before ++ after.
Proof.
  intros Hnn Hfresh.
  apply renderLines_insert; [exact Hnn| | |].
  - intros k Hk. now apply layout_covers.
  - intros k Hk. apply layout_insert_stable_lookup. intros ->. contradiction.
  - apply layout_insert_covers.
Qed.

Lemma renderLines_insert_one_witness :
  let t := insertAll [20; 10] in
  t <> Null /\ (30 ∉ preorder t) /\
  exists before after line,
    renderLines (insertIntoBST t 30) (layout (insertIntoBST t 30)) 0
      = before ++ line :: after /\
    renderLines t (layout t) 0 = before ++ after.
Proof.
  cbv zeta.
  assert (Hnn : insertAll [20; 10] <> Null) by (vm_compute; discriminate).
  assert (Hfresh : 30 ∉ preorder (insertAll [20; 10])).
  { apply (bool_decide_unpack _). vm_compute. exact I. }
  split; [exact Hnn|]. split; [exact Hfresh|].
  exact (renderLines_insert_one (insertAll [20; 10]) 30 0%Q Hnn Hfresh).
Defined.


(* --------------------------------------------------------------------- *)
(** *** The two layouts *)

(** X20. For every tree of at most 12 levels the layout the program
    computes in binary64 is the exact one: it has an entry for the same
    keys, and each entry holds, without any rounding, the x, the y and the
    level of the rational layout. *)
Theorem layout_binary64_exact (t : Tree) :
  (height t <= 12)%nat ->
  dom (Binary64.layout t) = dom (layout t) /\
  (forall k pf pos,
     Binary64.layout t !! k = Some pf ->
     layout t !! k = Some pos ->
     Binary64.exactly (Binary64.x pf) (x pos) /\
     Binary64.exactly (Binary64.y pf) (y pos) /\
     Binary64.exactly (Binary64.level pf) (inject_Z (level pos))).
Proof.
  intros Hh. split.
  - apply set_eq. intros k. rewrite !elem_of_dom.
    pose proof (layout_agree t k Hh) as Hag.
    destruct (Binary64.layout t !! k), (layout t !! k); cbn [agree] in Hag;
      try contradiction.
    + split; intros _; eexists; reflexivity.
    + split; intros [? H]; discriminate H.
  - intros k pf pos HF HQ.
    pose proof (layout_agree t k Hh) as Hag. rewrite HF, HQ in Hag. exact Hag.
Qed.

Lemma layout_binary64_exact_witness :
  let t := insertAll [20; 10; 30; 25] in
  Nat.le (height t) 12 /\
  Binary64.layout t !! 25
    = Some (Binary64.positionAt (Binary64.ofZ 2) (Binary64.ofZ 2)) /\
  layout t !! 25 = Some (positionAt 2 2) /\
  Binary64.exactly
    (Binary64.x (Binary64.positionAt (Binary64.ofZ 2) (Binary64.ofZ 2)))
    (x (positionAt 2 2)).
Proof.
  cbv zeta.
  assert (Hh : Nat.le (height (insertAll [20; 10; 30; 25])) 12) by (vm_compute; lia).
  assert (HF : Binary64.layout (insertAll [20; 10; 30; 25]) !! 25
               = Some (Binary64.positionAt (Binary64.ofZ 2) (Binary64.ofZ 2)))
    by (vm_compute; reflexivity).
  assert (HQ : layout (insertAll [20; 10; 30; 25]) !! 25 = Some (positionAt 2 2))
    by (vm_compute; reflexivity).
  split; [exact Hh|]. split; [exact HF|]. split; [exact HQ|].
  exact (proj1 (proj2 (layout_binary64_exact _ Hh) 25 _ _ HF HQ)).
Defined.
